(** * text_to_speech.py: text normalisation, chunking and audio assembly

    A shallow embedding of the functions of [text_to_speech.py] that carry
    the behaviour of the pipeline:
    [read_text_file], [clean_text], [split_text_into_chunks],
    [convert_text_to_speech] and [concatenate_wav_files].

    Python [str] values are sequences of Unicode code points, so a string is
    a [list N]; [len] is [length].  The collaborators outside the
    repository (codecs, [tempfile], the TTS engine, the [wave] module) are
    either parameters of a section or modelled at the level of what they
    leave on disk. *)

From Stdlib Require Import ZArith NArith Lia String Ascii.
From stdpp Require Import base list gmap strings.

Local Open Scope N_scope.
Local Open Scope nat_scope.

(** ** Python strings *)

Abbreviation char := N (only parsing).
Abbreviation str := (list N) (only parsing).

(** An ASCII literal, as the code points of its characters. *)
Definition py (s : string) : str := map N_of_ascii (list_ascii_of_string s).

(** [str.isspace] for one character, which is also the class [\s] of [re]
    on [str] patterns and the set removed by [str.strip()]:
    U+0009..U+000D, U+001C..U+0020, U+0085, U+00A0, U+1680, U+2000..U+200A,
    U+2028, U+2029, U+202F, U+205F, U+3000. *)
Definition isspace (c : char) : bool :=
  ((9 <=? c) && (c <=? 13) || (28 <=? c) && (c <=? 32)
   || (c =? 133) || (c =? 160) || (c =? 5760)
   || (8192 <=? c) && (c <=? 8202)
   || (c =? 8232) || (c =? 8233) || (c =? 8239) || (c =? 8287)
   || (c =? 12288))%N.

(** The class [\n]. *)
Definition is_newline (c : char) : bool := (c =? 10)%N.

(** The class [[.!?]]. *)
Definition is_terminator (c : char) : bool :=
  ((c =? 46) || (c =? 33) || (c =? 63))%N.

Fixpoint lstrip (s : str) : str :=
  match s with
  | c :: s' => if isspace c then lstrip s' else s
  | [] => []
  end.

Definition rstrip (s : str) : str := reverse (lstrip (reverse s)).

(** [s.strip()] *)
Definition strip (s : str) : str := rstrip (lstrip s).

(** [s.replace(old, new)] for a one-character [old], the only form the
    program uses: every occurrence is replaced, scanning left to right. *)
Definition str_replace (old : char) (new : str) (s : str) : str :=
  flat_map (fun c => if (c =? old)%N then new else [c]) s.

(** Truth value of a string: [if s:] holds for the non-empty ones. *)
Definition truthy (s : str) : bool :=
  match s with [] => false | _ :: _ => true end.

(** ** The regular expressions of the program

    A matcher tells, for the text that starts at the current position, how
    many characters the pattern consumes there, or [None] when it does not
    match at this position.  The patterns of the program never match the
    empty string. *)

Definition matcher := str -> option nat.

(** What a greedy [cls*] consumes at the start of [s]. *)
Fixpoint run (cls : char -> bool) (s : str) : nat :=
  match s with
  | c :: s' => if cls c then S (run cls s') else 0
  | [] => 0
  end.

(** [cls+] *)
Definition re_plus (cls : char -> bool) : matcher := fun s =>
  match run cls s with
  | 0 => None
  | S n => Some (S n)
  end.

(** [a+b+]: the greedy [a+] first takes its longest run of [n] characters
    and gives characters back one at a time, down to one, until [b+]
    matches behind it. *)
Fixpoint give_back (b : char -> bool) (s : str) (n : nat) : option nat :=
  match n with
  | 0 => None
  | S n' =>
      match run b (drop n s) with
      | S k => Some (n + S k)
      | 0 => give_back b s n'
      end
  end.

Definition re_plus_plus (a b : char -> bool) : matcher := fun s =>
  give_back b s (run a s).

(** [r'\s+'], [r'\n+'] and [r'[.!?]+\s+'] *)
Definition re_spaces : matcher := re_plus isspace.
Definition re_newlines : matcher := re_plus is_newline.
Definition re_sentence_end : matcher := re_plus_plus is_terminator isspace.

(** [re.sub(pattern, repl, s)]: scan from the left; where the pattern
    matches, emit [repl] and resume after the match; elsewhere copy the
    character.  [skip] counts the characters of the current match that
    are still to be passed over. *)
Fixpoint sub_from (m : matcher) (repl : str) (s : str) (skip : nat) : str :=
  match s with
  | [] => []
  | c :: s' =>
      match skip with
      | S k => sub_from m repl s' k
      | 0 =>
          match m s with
          | Some (S k) => repl ++ sub_from m repl s' k
          | _ => c :: sub_from m repl s' 0
          end
      end
  end.

Definition re_sub (m : matcher) (repl : str) (s : str) : str :=
  sub_from m repl s 0.

(** [re.split(pattern, s)]: the pieces of [s] between the successive
    matches, the empty pieces included.  [cur] is the piece being read. *)
Fixpoint split_from (m : matcher) (s : str) (cur : str) (skip : nat)
  : list str :=
  match s with
  | [] => [cur]
  | c :: s' =>
      match skip with
      | S k => split_from m s' cur k
      | 0 =>
          match m s with
          | Some (S k) => cur :: split_from m s' [] k
          | _ => split_from m s' (cur ++ [c]) 0
          end
      end
  end.

Definition re_split (m : matcher) (s : str) : list str :=
  split_from m s [] 0.

(** ** [clean_text] *)

(** The [replacements] dict, in insertion order, which is the order in
    which [for old, new in replacements.items()] visits it. *)
Definition replacements : list (char * str) :=
  [ (38%N, py " " ++ [233%N] ++ py "s ");                  (* '&': ' és ' *)
    (64%N, py " kukac ");                                   (* '@' *)
    (35%N, py " hashtag ");                                 (* '#' *)
    (37%N, py " sz" ++ [225%N] ++ py "zal" ++ [233%N] ++ py "k ");
                                                            (* '%': ' százalék ' *)
    (43%N, py " plusz ");                                   (* '+' *)
    (61%N, py " egyenl" ++ [337%N] ++ py " ");              (* '=': ' egyenlő ' *)
    (60%N, py " kisebb mint ");                             (* '<' *)
    (62%N, py " nagyobb mint ") ].                          (* '>' *)

Definition replace_all (table : list (char * str)) (text : str) : str :=
  fold_left (fun t '(old, new) => str_replace old new t) table text.

Definition clean_text (text : str) : str :=
  let text := re_sub re_spaces (py " ") text in
  let text := re_sub re_newlines (py ". ") text in
  let text := replace_all replacements text in
  strip text.

(** ** [split_text_into_chunks] *)

(** [s[:k]] and [s[k:]] for an integer [k], which Python counts from the
    end of the string when it is negative. *)
Definition slice_to (k : Z) (s : str) : str :=
  if (0 <=? k)%Z then take (Z.to_nat k) s
  else take (length s - Z.to_nat (- k)) s.

Definition slice_from (k : Z) (s : str) : str :=
  if (0 <=? k)%Z then drop (Z.to_nat k) s
  else drop (length s - Z.to_nat (- k)) s.

Definition len (s : str) : Z := Z.of_nat (length s).

(** The inner [while len(sentence) > max_chunk_size] loop, on the pair
    [(chunks, sentence)].  The loop has no bound of its own, so the model
    counts iterations down from [fuel] and answers [None] when they run
    out. *)
Fixpoint hard_split (fuel : nat) (max_chunk_size : Z)
    (chunks : list str) (sentence : str) : option (list str * str) :=
  if (len sentence >? max_chunk_size)%Z then
    match fuel with
    | 0 => None
    | S fuel' =>
        hard_split fuel' max_chunk_size
          (chunks ++ [slice_to max_chunk_size sentence])
          (slice_from max_chunk_size sentence)
    end
  else Some (chunks, sentence).

(** One turn of [for sentence in sentences], on the pair
    [(chunks, current_chunk)]. *)
Definition chunk_step (max_chunk_size : Z) (st : list str * str)
    (sentence : str) : option (list str * str) :=
  let '(chunks, current_chunk) := st in
  let sentence := strip sentence in
  if negb (truthy sentence) then Some (chunks, current_chunk)
  else if (len current_chunk + len sentence + 2 >? max_chunk_size)%Z then
    if truthy current_chunk then
      Some (chunks ++ [strip current_chunk], sentence)
    else
      hard_split (length sentence) max_chunk_size chunks sentence
  else
    Some (chunks,
          if truthy current_chunk
          then current_chunk ++ py ". " ++ sentence
          else sentence).

Fixpoint chunk_loop (max_chunk_size : Z) (sentences : list str)
    (st : list str * str) : option (list str * str) :=
  match sentences with
  | [] => Some st
  | sentence :: rest =>
      match chunk_step max_chunk_size st sentence with
      | Some st' => chunk_loop max_chunk_size rest st'
      | None => None
      end
  end.

(** [None] stands for a call that does not return. *)
Definition split_text_into_chunks (text : str) (max_chunk_size : Z)
  : option (list str) :=
  let sentences := re_split re_sentence_end text in
  match chunk_loop max_chunk_size sentences ([], []) with
  | Some (chunks, current_chunk) =>
      Some (if truthy current_chunk
            then chunks ++ [strip current_chunk]
            else chunks)
  | None => None
  end.

(** ** [read_text_file] *)

Inductive encoding := utf_8 | utf_8_sig | iso_8859_2 | cp1250.

(** The [encodings] list of [read_text_file]. *)
Definition encodings : list encoding := [utf_8; utf_8_sig; iso_8859_2; cp1250].

Inductive exn :=
| ValueError | UnicodeDecodeError | OSError
| FileNotFoundError | WaveError | EOFError | StructError | SynthesisError.

Inductive result (A : Type) :=
| Ok (a : A)
| Raise (e : exn).
Arguments Ok {A} a.
Arguments Raise {A} e.

Section Resolver.
(** What [open(file_path, 'r', encoding=e)] followed by [file.read()]
    gives for the file at hand: the decoded text, or the exception
    raised ([UnicodeDecodeError] by the codec, anything else by the
    file system). *)
Variable open_read : encoding -> result str.

(** The [for encoding in encodings] loop.  Both [except] clauses
    [continue]; a text that is empty once stripped falls through to the
    next turn as well. *)
Fixpoint try_encodings (encs : list encoding) : result str :=
  match encs with
  | [] => Raise ValueError
  | e :: rest =>
      match open_read e with
      | Ok raw =>
          let text := strip raw in
          if truthy text then Ok text else try_encodings rest
      | Raise UnicodeDecodeError => try_encodings rest
      | Raise _ => try_encodings rest
      end
  end.

Definition read_text_file : result str := try_encodings encodings.
End Resolver.

(** ** Audio files on disk *)

(** The format fields of a WAV header that [getparams()] reports and
    [setparams()] installs. *)
Record wav_params := {
  nchannels : Z;
  sampwidth : Z;
  framerate : Z
}.

(** A file, as the [wave] module sees it.
    - [WavFile p frames]: a well-formed RIFF/WAVE file; [frames] are the
      bytes of its whole frames, and its header declares exactly them.
    - [TailedWav p frames tail]: a RIFF/WAVE file whose header declares
      [frames] and which holds [tail] more bytes of data behind them, as a
      writer leaves it when the header could not be brought up to date.
      A reader sees [frames] only.
    - [BrokenWav e]: a file that starts with the [RIFF] and [WAVE] tags
      and that [wave.open] turns down further on, raising [e]:
      [EOFError] when the [fmt] chunk is cut short, [wave.Error] when a
      chunk is missing or the format is not supported.
    - [RawFile bytes]: content that does not start as a RIFF/WAVE file,
      which [wave.open] turns down at the first chunk header or at the
      tags. *)
Inductive file_data :=
| WavFile (params : wav_params) (frames : list Byte.byte)
| TailedWav (params : wav_params) (frames tail : list Byte.byte)
| BrokenWav (e : exn)
| RawFile (bytes : list Byte.byte).

(** The disk: paths to file contents.  A file being written is shown with
    what has gone to it so far; what a reader would see of it before it
    is closed depends on buffering, and the statements about merged
    segments keep the segments away from the output path. *)
Abbreviation filesystem := (gmap string file_data).

(** A [wave.Wave_write] object.
    - [w_params]: the format installed by [setparams];
    - [w_nframes]: [_nframes], counted in bytes (frames times frame size):
      the data length announced with the parameters;
    - [w_header]: [_headerwritten];
    - [w_junk]: what attempts at the header that failed have left in the
      file;
    - [w_datalength]: [_datalength], the data length the header declares;
    - [w_frames]: the data written, [_datawritten] bytes of it. *)
Record wave_write := {
  w_params : option wav_params;
  w_nframes : nat;
  w_header : bool;
  w_junk : list Byte.byte;
  w_datalength : nat;
  w_frames : list Byte.byte
}.

Definition new_writer : wave_write :=
  {| w_params := None; w_nframes := 0; w_header := false; w_junk := [];
     w_datalength := 0; w_frames := [] |}.

(** [setnchannels], [setsampwidth] and [setframerate] reject values
    outside these ranges.  The limits of the header fields come later,
    when the header is written: see [header_fits]. *)
Definition valid_params (p : wav_params) : bool :=
  ((1 <=? nchannels p) && (1 <=? sampwidth p) && (sampwidth p <=? 4)
   && (0 <? framerate p))%Z.

(** What [struct.pack('<L4s4sLHHLLHH4s', ...)] of [_write_header] takes:
    the length [36 + datalength], the sampling rate and the byte rate in
    32 bits, the number of channels, the block size and the bits per
    sample in 16 bits. *)
Definition header_fits (p : wav_params) (datalength : nat) : bool :=
  ((36 + Z.of_nat datalength <? 2 ^ 32)
   && (nchannels p <? 2 ^ 16)
   && (framerate p <? 2 ^ 32)
   && (nchannels p * framerate p * sampwidth p <? 2 ^ 32)
   && (nchannels p * sampwidth p <? 2 ^ 16)
   && (sampwidth p * 8 <? 2 ^ 16))%Z.

(** What [struct.pack('<L', 36 + self._datawritten)] of [_patchheader]
    takes. *)
Definition length_fits (datawritten : nat) : bool :=
  (36 + Z.of_nat datawritten <? 2 ^ 32)%Z.

(** The bytes [b'RIFF'], which [_write_header] writes before it packs the
    rest of the header. *)
Definition riff_tag : list Byte.byte :=
  [Byte.x52; Byte.x49; Byte.x46; Byte.x46].

(** The file of a writer, as it is once what was written has reached the
    disk. *)
Definition on_disk (w : wave_write) : file_data :=
  match w_params w, w_header w with
  | Some p, true =>
      if Nat.eqb (w_datalength w) (length (w_frames w))
      then WavFile p (w_frames w)
      else TailedWav p (take (w_datalength w) (w_frames w))
                       (drop (w_datalength w) (w_frames w))
  | _, _ => RawFile (w_junk w)
  end.

(** [output_wav.setparams(params)], where [params] carries the format [p]
    and a number of frames that amounts to [announced] bytes. *)
Definition setparams (p : wav_params) (announced : nat) (w : wave_write)
  : result wave_write :=
  match w_frames w with
  | _ :: _ => Raise WaveError
  | [] =>
      if valid_params p
      then Ok {| w_params := Some p; w_nframes := announced;
                 w_header := w_header w; w_junk := w_junk w;
                 w_datalength := w_datalength w; w_frames := [] |}
      else Raise WaveError
  end.

(** [_ensure_header_written(datasize)]: nothing to do once the header is
    there; [wave.Error] without parameters; otherwise [_write_header],
    which writes [b'RIFF'], settles the data length to declare, and raises
    [struct.error] when a header field does not take its value. *)
Definition ensure_header_written (datasize : nat) (w : wave_write)
  : wave_write * result unit :=
  if w_header w then (w, Ok tt)
  else
    match w_params w with
    | None => (w, Raise WaveError)
    | Some p =>
        let nframes :=
          if Nat.eqb (w_nframes w) 0 then datasize else w_nframes w in
        if header_fits p nframes then
          ({| w_params := Some p; w_nframes := nframes; w_header := true;
              w_junk := w_junk w; w_datalength := nframes;
              w_frames := w_frames w |}, Ok tt)
        else
          ({| w_params := Some p; w_nframes := nframes; w_header := false;
              w_junk := w_junk w ++ riff_tag;
              w_datalength := w_datalength w; w_frames := w_frames w |},
           Raise StructError)
    end.

(** [_patchheader()], called when the declared length is not the length
    written: the new length has to fit 32 bits, or [struct.error] is raised
    and the header stays as it was. *)
Definition patchheader (w : wave_write) : wave_write * result unit :=
  if Nat.eqb (w_datalength w) (length (w_frames w)) then (w, Ok tt)
  else if length_fits (length (w_frames w)) then
    ({| w_params := w_params w; w_nframes := w_nframes w;
        w_header := w_header w; w_junk := w_junk w;
        w_datalength := length (w_frames w); w_frames := w_frames w |},
     Ok tt)
  else (w, Raise StructError).

(** [output_wav.writeframes(data)], on a little-endian host: the header
    first if it is not written yet, then the bytes, then the header is
    brought up to date.  The writer is returned as the call leaves it,
    raising or not. *)
Definition writeframes (output_path : string) (data : list Byte.byte)
    (w : wave_write) (fs : filesystem)
  : filesystem * wave_write * result unit :=
  match ensure_header_written (length data) w with
  | (w1, Raise e) => (<[output_path := on_disk w1]> fs, w1, Raise e)
  | (w1, Ok _) =>
      let w2 := {| w_params := w_params w1; w_nframes := w_nframes w1;
                   w_header := w_header w1; w_junk := w_junk w1;
                   w_datalength := w_datalength w1;
                   w_frames := w_frames w1 ++ data |} in
      let '(w3, r) := patchheader w2 in
      (<[output_path := on_disk w3]> fs, w3, r)
  end.

(** [output_wav.close()], which leaving the [with] block calls: it writes
    the header if that has not been done, which fails when no parameters
    were ever set, and brings it up to date. *)
Definition wave_close (output_path : string) (w : wave_write)
    (fs : filesystem) : filesystem * result unit :=
  match ensure_header_written 0 w with
  | (w1, Raise e) => (<[output_path := on_disk w1]> fs, Raise e)
  | (w1, Ok _) =>
      let '(w2, r) := patchheader w1 in
      (<[output_path := on_disk w2]> fs, r)
  end.

(** [wave.open(input_file, 'rb')] with [getparams()] and
    [readframes(getnframes())].  A file too short for a chunk header,
    the empty file among them, gives [EOFError]; a longer one without the
    tags gives [wave.Error]; one that is cut short or malformed behind the
    tags gives the error that goes with it. *)
Definition wave_read (input_file : string) (fs : filesystem)
  : result (wav_params * list Byte.byte) :=
  match fs !! input_file with
  | None => Raise FileNotFoundError
  | Some (RawFile bytes) =>
      Raise (if Nat.ltb (length bytes) 8 then EOFError else WaveError)
  | Some (BrokenWav e) => Raise e
  | Some (WavFile p frames) => Ok (p, frames)
  | Some (TailedWav p frames _) => Ok (p, frames)
  end.

(** ** [concatenate_wav_files] *)

(** The [for i, input_file in enumerate(input_files)] loop. *)
Fixpoint copy_segments (input_files : list string) (i : nat)
    (output_path : string) (w : wave_write) (fs : filesystem)
  : filesystem * wave_write * result unit :=
  match input_files with
  | [] => (fs, w, Ok tt)
  | input_file :: rest =>
      match wave_read input_file fs with
      | Raise e => (fs, w, Raise e)
      | Ok (p, frames) =>
          match (if Nat.eqb i 0 then setparams p (length frames) w
                 else Ok w) with
          | Raise e => (fs, w, Raise e)
          | Ok w1 =>
              match writeframes output_path frames w1 fs with
              | (fs1, w2, Raise e) => (fs1, w2, Raise e)
              | (fs1, w2, Ok _) =>
                  copy_segments rest (S i) output_path w2 fs1
              end
          end
      end
  end.

Definition concatenate_wav_files (input_files : list string)
    (output_path : string) (fs : filesystem) : filesystem * result unit :=
  (* wave.open(output_path, 'wb') creates the file, or empties it *)
  let fs0 := <[output_path := RawFile []]> fs in
  let '(fs1, w, r) := copy_segments input_files 0 output_path new_writer fs0 in
  (* the with block closes output_wav on the way out, raising or not *)
  match wave_close output_path w fs1 with
  | (fs2, Ok _) => (fs2, r)
  | (fs2, Raise e) => (fs2, Raise e)
  end.

(** ** [convert_text_to_speech] *)

(** [shutil.move(src, dst)] between two file paths. *)
Definition shutil_move (src dst : string) (fs : filesystem)
  : filesystem * result unit :=
  match fs !! src with
  | Some d => (<[dst := d]> (delete src fs), Ok tt)
  | None => (fs, Raise FileNotFoundError)
  end.

Section Pipeline.
(** The name [tempfile.NamedTemporaryFile(suffix='.wav', delete=False)]
    picks, given the disk. *)
Variable mktemp : filesystem -> string.

(** The engine: what [tts.tts_to_file(text=chunk, file_path=...)] writes
    to the path it is given, or [None] when it raises. *)
Variable tts_to_file : str -> option file_data.

(** Whether [os.unlink(path)] raises, on the disk as it is; when it does
    not, the file is gone. *)
Variable unlink_raises : string -> filesystem -> bool.

(** The [finally] block: for every recorded temporary file that still
    exists [os.unlink] is tried, and what it raises is dropped by
    [except: pass], the file staying where it is. *)
Definition cleanup (temp_files : list string) (fs : filesystem) : filesystem :=
  fold_left
    (fun fs temp_file =>
       match fs !! temp_file with
       | Some _ =>
           if unlink_raises temp_file fs then fs else delete temp_file fs
       | None => fs
       end)
    temp_files fs.

(** The [for i, chunk in enumerate(text_chunks, 1)] loop.  [temp_files]
    is returned in every case, since the list outlives an exception. *)
Fixpoint synthesize_chunks (text_chunks : list str)
    (temp_files : list string) (fs : filesystem)
  : filesystem * list string * result unit :=
  match text_chunks with
  | [] => (fs, temp_files, Ok tt)
  | chunk :: rest =>
      let name := mktemp fs in
      let fs1 := <[name := RawFile []]> fs in
      let temp_files1 := temp_files ++ [name] in
      match tts_to_file chunk with
      | None => (fs1, temp_files1, Raise SynthesisError)
      | Some data =>
          synthesize_chunks rest temp_files1 (<[name := data]> fs1)
      end
  end.

(** The [try] block. *)
Definition convert_body (text_chunks : list str) (output_path : string)
    (fs : filesystem) : filesystem * list string * result unit :=
  match synthesize_chunks text_chunks [] fs with
  | (fs1, temp_files, Raise e) => (fs1, temp_files, Raise e)
  | (fs1, temp_files, Ok _) =>
      if Nat.eqb (length temp_files) 1 then
        let '(fs2, r) := shutil_move (hd EmptyString temp_files)
                                     output_path fs1 in
        (fs2, temp_files, r)
      else
        let '(fs2, r) := concatenate_wav_files temp_files output_path fs1 in
        (fs2, temp_files, r)
  end.

(** The whole function: the disk it leaves, the temporary files it
    created, and how it ended. *)
Definition convert_text_to_speech (text_chunks : list str)
    (output_path : string) (fs : filesystem)
  : filesystem * list string * result unit :=
  let '(fs1, temp_files, r) := convert_body text_chunks output_path fs in
  (cleanup temp_files fs1, temp_files, r).
End Pipeline.

(** ** [validate_input_file], [get_file_info] and [main] *)

(** [validate_input_file]: what it does with the answers of
    [path.exists()] and [path.is_file()].  The suffix test only logs a
    warning. *)
Definition validate_input_file (path_exists path_is_file : bool)
  : result unit :=
  if negb path_exists then Raise FileNotFoundError
  else if negb path_is_file then Raise ValueError
  else Ok tt.

(** [get_file_info] only logs.  Whatever goes wrong while the file is read
    as WAV is caught by the bare [except], whose handler asks for the size
    of the file: so the call raises exactly when the file is not there. *)
Definition get_file_info (file_path : string) (fs : filesystem)
  : result unit :=
  match fs !! file_path with
  | Some _ => Ok tt
  | None => Raise FileNotFoundError
  end.

(** [shutil.copy2(src, dst)] between two file paths; copying a file onto
    itself raises [SameFileError], an [OSError]. *)
Definition shutil_copy2 (src dst : string) (fs : filesystem)
  : filesystem * result unit :=
  if String.eqb src dst then (fs, Raise OSError)
  else
    match fs !! src with
    | Some d => (<[dst := d]> fs, Ok tt)
    | None => (fs, Raise FileNotFoundError)
    end.

Section Main.
(** The command line and the world around [main]: the answers of the
    file system about the input path, the decoding of the input file, the
    chunk size, how loading the model ends, the output path and the path
    [output_path.with_suffix(f'.backup{output_path.suffix}')], the
    temporary names, the engine and the outcome of [os.unlink]. *)
Variable input_exists input_is_file : bool.
Variable open_read : encoding -> result str.
Variable chunk_size : Z.
Variable initialize_tts : result unit.
Variable output_file backup_path : string.
Variable mktemp : filesystem -> string.
Variable tts_to_file : str -> option file_data.
Variable unlink_raises : string -> filesystem -> bool.

(** The backup step: [if output_path.exists(): shutil.copy2(...)]. *)
Definition backup_output (fs : filesystem) : filesystem * result unit :=
  match fs !! output_file with
  | Some _ => shutil_copy2 output_file backup_path fs
  | None => (fs, Ok tt)
  end.

(** The [try] block of [main]; [None] when it does not return. *)
Definition main_try (fs : filesystem) : option (filesystem * result unit) :=
  match validate_input_file input_exists input_is_file with
  | Raise e => Some (fs, Raise e)
  | Ok _ =>
      match read_text_file open_read with
      | Raise e => Some (fs, Raise e)
      | Ok text =>
          if negb (truthy text) then Some (fs, Raise ValueError)
          else
            match split_text_into_chunks (clean_text text) chunk_size with
            | None => None
            | Some text_chunks =>
                match initialize_tts with
                | Raise e => Some (fs, Raise e)
                | Ok _ =>
                    match backup_output fs with
                    | (fs1, Raise e) => Some (fs1, Raise e)
                    | (fs1, Ok _) =>
                        match convert_text_to_speech mktemp tts_to_file
                                unlink_raises text_chunks output_file fs1 with
                        | (fs2, _, Raise e) => Some (fs2, Raise e)
                        | (fs2, _, Ok _) =>
                            Some (fs2, get_file_info output_file fs2)
                        end
                    end
                end
            end
      end
  end.

(** [main]: the disk it leaves and the exit status, 1 after
    [sys.exit(1)] in the [except Exception] clause and 0 otherwise. *)
Definition main (fs : filesystem) : option (filesystem * Z) :=
  match main_try fs with
  | None => None
  | Some (fs', Ok _) => Some (fs', 0%Z)
  | Some (fs', Raise _) => Some (fs', 1%Z)
  end.
End Main.

(** ** Concrete collaborators for the examples *)

(** Temporary names [/tmp/tmp0.wav], [/tmp/tmp00.wav], ..., with as many
    digits as the disk has files, plus one. *)
Definition demo_mktemp (fs : filesystem) : string :=
  ("/tmp/tmp" ++ String.concat "" (replicate (S (size fs)) "0") ++ ".wav")%string.

Definition pcm (rate : Z) : wav_params :=
  {| nchannels := 1; sampwidth := 2; framerate := rate |}.

(** [os.unlink] going through every time, and raising every time. *)
Definition unlink_works : string -> filesystem -> bool := fun _ _ => false.
Definition unlink_denied : string -> filesystem -> bool := fun _ _ => true.

(** An engine for the examples: it refuses the empty text, writes nothing
    usable for a text that starts with ['?'], and a two-byte mono 16-bit
    recording at 22050 Hz otherwise. *)
Definition demo_tts (text : str) : option file_data :=
  match text with
  | [] => None
  | c :: _ =>
      if (c =? 63)%N then Some (RawFile [])
      else Some (WavFile (pcm 22050) [Byte.x01; Byte.x02])
  end.

(** A disk with two recordings made at different sample rates. *)
Definition demo_disk : filesystem :=
  <["a.wav" := WavFile (pcm 22050) [Byte.x01; Byte.x02]]>
    (<["b.wav" := WavFile (pcm 44100) [Byte.x03; Byte.x04]]> ∅).

(** A segment as the statements name it: its path, format and frames. *)
Abbreviation segment := (string * (wav_params * list Byte.byte))%type.

Definition seg_frames (segs : list segment) : list Byte.byte :=
  concat (map (fun seg => seg.2.2) segs).

(** The segment is on the disk under its path, which is not [out]. *)
Definition readable (fs : filesystem) (out : string) (seg : segment) : Prop :=
  seg.1 <> out /\ fs !! seg.1 = Some (WavFile seg.2.1 seg.2.2).

(** ** Vocabulary of the statements *)

(** Candidate [e] succeeds with the non-empty text [t]: the file decodes
    and [t] is what is left of the decoded text once stripped. *)
Definition succeeds (open_read : encoding -> result str) (e : encoding)
    (t : str) : Prop :=
  exists raw, open_read e = Ok raw /\ strip raw = t /\ t <> [].


(** No whitespace at the front. *)
Definition front_ok (s : str) : Prop :=
  match s with
  | [] => True
  | c :: _ => isspace c = false
  end.

(** No whitespace at either end: what [strip] establishes. *)
Definition stripped (s : str) : Prop := front_ok s /\ front_ok (reverse s).

(** The characters that carry content: neither whitespace nor sentence
    punctuation.  Splitting, stripping and re-joining with [". "] only ever
    add or remove the other ones. *)
Definition content (s : str) : str :=
  filter (fun c => (isspace c || is_terminator c) = false) s.

(** Some character of [s] is not whitespace. *)
Definition inked (s : str) : Prop := exists c, c ∈ s /\ isspace c = false.

(** The first [k] characters of [s] are whitespace or sentence punctuation,
    and the last of them is whitespace: the shape of what is left of a
    match of [re_sentence_end] that is being passed over. *)
Definition sep_prefix (k : nat) (s : str) : Prop :=
  (forall i, i < k ->
     exists c, s !! i = Some c /\ (isspace c || is_terminator c) = true) /\
  (forall k', k = S k' -> exists c, s !! k' = Some c /\ isspace c = true).

(** A chunk respects the limit [N], or it is a whole sentence of the text
    that is longer than [N] by itself. *)
Definition within_limit (N : Z) (sentences : list str) (c : str) : Prop :=
  (len c <= N)%Z \/
  exists s, s ∈ sentences /\ c = strip s /\ (N < len c)%Z.

(** Whitespace squeezing as a one-pass scan; [prev] tells whether the
    previous character was whitespace.  It is shown below to be what
    [re.sub(r'\s+', ' ', s)] computes. *)
Fixpoint squeeze (prev : bool) (s : str) : str :=
  match s with
  | [] => []
  | c :: s' =>
      if isspace c
      then (if prev then squeeze true s' else 32%N :: squeeze true s')
      else c :: squeeze false s'
  end.

(** Every whitespace character is a plain space standing alone. *)
Fixpoint tidy (prev : bool) (s : str) : bool :=
  match s with
  | [] => true
  | c :: s' =>
      if isspace c
      then (c =? 32)%N && negb prev && tidy true s'
      else tidy false s'
  end.

(** Two plain spaces in a row somewhere. *)
Fixpoint adjacent_spaces (s : str) : bool :=
  match s with
  | [] => false
  | c :: s' =>
      match s' with
      | d :: _ => (c =? 32)%N && (d =? 32)%N || adjacent_spaces s'
      | [] => false
      end
  end.

(** The only whitespace is the plain space. *)
Definition plain_spaces (s : str) : Prop :=
  Forall (fun c => isspace c = true -> c = 32%N) s.

(** One of the keys of [replacements]. *)
Definition is_symbol (c : char) : bool :=
  existsb (fun '(old, _) => (c =? old)%N) replacements.

Definition symbol_free (s : str) : Prop :=
  Forall (fun c => is_symbol c = false) s.

(** [sep.join(parts)] *)
Fixpoint str_join (sep : str) (parts : list str) : str :=
  match parts with
  | [] => []
  | p :: rest =>
      match rest with
      | [] => p
      | _ :: _ => p ++ sep ++ str_join sep rest
      end
  end.

(** The sentences the chunker works with: the pieces of the split,
    stripped, the blank ones left out. *)
Definition spoken_sentences (text : str) : list str :=
  filter (fun s => truthy s = true)
         (map strip (re_split re_sentence_end text)).

(** The merge has no usable first segment: the list is empty, or its
    first file is the destination itself, is missing, is not a WAV file,
    or has parameters that the writer rejects. *)
Definition no_first_segment (files : list string) (out : string)
    (fs : filesystem) : Prop :=
  match files with
  | [] => True
  | f :: _ =>
      f = out \/
      match fs !! f with
      | Some (WavFile p _) => valid_params p = false
      | Some (TailedWav p _ _) => valid_params p = false
      | Some (BrokenWav _) => True
      | Some (RawFile _) => True
      | None => True
      end
  end.

(** A temporary-name generator for the examples that never returns a
    name in use, nor the reserved one. *)
Definition fresh_mktemp (reserved : string) (fs : filesystem) : string :=
  fresh ({[reserved]} ∪ dom fs).

(** A writer whose header is written and up to date, with [frames]
    behind it. *)
Definition steady (p : wav_params) (frames : list Byte.byte)
    (w : wave_write) : Prop :=
  w_params w = Some p /\ w_header w = true /\
  w_datalength w = length frames /\ w_frames w = frames.

(** * Properties *)

(** ** Characters *)

Lemma isspace_not_terminator c : isspace c = true -> is_terminator c = false.
Proof.
  unfold is_terminator. intros H.
  destruct (N.eqb_spec c 46) as [->|_]; [discriminate H|].
  destruct (N.eqb_spec c 33) as [->|_]; [discriminate H|].
  destruct (N.eqb_spec c 63) as [->|_]; [discriminate H|].
  reflexivity.
Qed.

Lemma newline_isspace c : is_newline c = true -> isspace c = true.
Proof.
  unfold is_newline. intros H. apply N.eqb_eq in H. subst c. reflexivity.
Qed.

(** ** [strip] *)

Lemma lstrip_front_ok s : front_ok (lstrip s).
Proof.
  induction s as [|c s IH]; simpl; [exact I|].
  destruct (isspace c) eqn:E; [exact IH | exact E].
Qed.

Lemma lstrip_id s : front_ok s -> lstrip s = s.
Proof. destruct s as [|c s]; simpl; [reflexivity|]. intros ->. reflexivity. Qed.

Lemma lstrip_app a b :
  lstrip (a ++ b) = match lstrip a with [] => lstrip b | _ :: _ => lstrip a ++ b end.
Proof.
  induction a as [|c a IH]; simpl; [reflexivity|].
  destruct (isspace c); [exact IH | reflexivity].
Qed.

Lemma lstrip_all_space s : Forall (fun c => isspace c = true) s -> lstrip s = [].
Proof. induction 1 as [|c s Hc _ IH]; simpl; [reflexivity|]. rewrite Hc. exact IH. Qed.

Lemma rstrip_cons c s :
  rstrip (c :: s) =
  match rstrip s with
  | [] => if isspace c then [] else [c]
  | _ :: _ => c :: rstrip s
  end.
Proof.
  unfold rstrip. rewrite reverse_cons, lstrip_app.
  destruct (lstrip (reverse s)) as [|d r] eqn:E.
  - simpl. destruct (isspace c); reflexivity.
  - rewrite reverse_app. simpl.
    destruct (reverse (d :: r)) as [|e r'] eqn:E'; [|reflexivity].
    apply (f_equal reverse) in E'. rewrite reverse_involutive in E'.
    discriminate E'.
Qed.

Lemma rstrip_front_ok s : front_ok s -> front_ok (rstrip s).
Proof.
  destruct s as [|c s]; [intros _; exact I|].
  simpl. intros Hc. rewrite rstrip_cons, Hc.
  destruct (rstrip s); simpl; exact Hc.
Qed.

Lemma strip_stripped s : stripped (strip s).
Proof.
  split.
  - apply rstrip_front_ok, lstrip_front_ok.
  - unfold strip, rstrip. rewrite reverse_involutive. apply lstrip_front_ok.
Qed.

Lemma strip_id s : stripped s -> strip s = s.
Proof.
  intros [H1 H2]. unfold strip, rstrip.
  rewrite (lstrip_id s H1), (lstrip_id _ H2). apply reverse_involutive.
Qed.

Lemma strip_idem s : strip (strip s) = strip s.
Proof. apply strip_id, strip_stripped. Qed.

Lemma strip_all_space s : Forall (fun c => isspace c = true) s -> strip s = [].
Proof. intros H. unfold strip. rewrite (lstrip_all_space s H). reflexivity. Qed.

(** ** The regular expressions *)

Lemma run_lookup cls s i :
  i < run cls s -> exists c, s !! i = Some c /\ cls c = true.
Proof.
  revert i. induction s as [|c s IH]; simpl; intros i Hi; [lia|].
  destruct (cls c) eqn:E; [|lia].
  destruct i as [|i]; simpl; [eauto|]. apply IH. lia.
Qed.

Lemma run_none cls s :
  match s with [] => True | c :: _ => cls c = false end -> run cls s = 0.
Proof. destruct s as [|c s]; simpl; [reflexivity|]. intros ->. reflexivity. Qed.

Lemma drop_run_isspace s : drop (run isspace s) s = lstrip s.
Proof.
  induction s as [|c s IH]; simpl; [reflexivity|].
  destruct (isspace c); [exact IH | reflexivity].
Qed.

Lemma give_back_spec b s n0 n :
  give_back b s n0 = Some n ->
  exists j k, 1 <= j <= n0 /\ n = j + S k /\ run b (drop j s) = S k.
Proof.
  induction n0 as [|n0 IH]; simpl; [discriminate|].
  destruct (run b (drop (S n0) s)) as [|k] eqn:E.
  - intros H. destruct (IH H) as (j & k & Hj & Hn & Hr).
    exists j, k. repeat split; try lia; assumption.
  - intros [= <-]. exists (S n0), k. repeat split; try lia; assumption.
Qed.

(** A match of [[.!?]+\s+] is a stretch of punctuation and whitespace
    that ends with whitespace. *)
Lemma re_sentence_end_sep s n :
  re_sentence_end s = Some n -> sep_prefix n s.
Proof.
  unfold re_sentence_end, re_plus_plus. intros H.
  destruct (give_back_spec _ _ _ _ H) as (j & k & Hj & -> & Hr).
  assert (Hws : forall i, j <= i < j + S k ->
            exists c, s !! i = Some c /\ isspace c = true).
  { intros i Hi.
    destruct (run_lookup isspace (drop j s) (i - j)) as (c & Hc & Hs); [lia|].
    rewrite lookup_drop in Hc. replace (j + (i - j)) with i in Hc by lia.
    eauto. }
  split.
  - intros i Hi. destruct (Nat.lt_ge_cases i j) as [Hlt|Hge].
    + destruct (run_lookup is_terminator s i) as (c & Hc & Ht); [lia|].
      exists c. split; [assumption|]. rewrite Ht. apply orb_true_r.
    + destruct (Hws i) as (c & Hc & Hs); [lia|].
      exists c. split; [assumption|]. rewrite Hs. reflexivity.
  - intros k' Hk'. apply Hws. lia.
Qed.

Lemma re_sentence_end_none s :
  match s with [] => True | c :: _ => is_terminator c = false end ->
  re_sentence_end s = None.
Proof.
  intros H. unfold re_sentence_end, re_plus_plus.
  rewrite (run_none _ _ H). reflexivity.
Qed.

Lemma sep_prefix_0 s : sep_prefix 0 s.
Proof. split; [intros i Hi; lia | intros k' Hk'; discriminate Hk']. Qed.

Lemma sep_prefix_S k c s :
  sep_prefix (S k) (c :: s) ->
  (isspace c || is_terminator c) = true /\ sep_prefix k s /\
  (k = 0 -> isspace c = true).
Proof.
  intros [H1 H2]. split; [|split].
  - destruct (H1 0) as (d & Hd & Hs); [lia|]. simpl in Hd.
    injection Hd as <-. exact Hs.
  - split.
    + intros i Hi. destruct (H1 (S i)) as (d & Hd & Hs); [lia|]. eauto.
    + intros k' ->. destruct (H2 (S k')) as (d & Hd & Hs); [reflexivity|]. eauto.
  - intros ->. destruct (H2 0) as (d & Hd & Hs); [reflexivity|].
    simpl in Hd. injection Hd as <-. exact Hs.
Qed.

Lemma sub_from_skip m repl s k :
  sub_from m repl s k = sub_from m repl (drop k s) 0.
Proof.
  revert k. induction s as [|c s IH]; intros [|k]; try reflexivity.
  simpl. apply IH.
Qed.

Lemma re_sub_plus_cons cls repl c s :
  re_sub (re_plus cls) repl (c :: s) =
  if cls c then repl ++ re_sub (re_plus cls) repl (drop (run cls s) s)
  else c :: re_sub (re_plus cls) repl s.
Proof.
  unfold re_sub. cbn [sub_from]. unfold re_plus at 1. cbn [run].
  destruct (cls c); [|reflexivity].
  rewrite sub_from_skip. reflexivity.
Qed.

(** Where the class does not occur, [re.sub] changes nothing. *)
Lemma re_sub_plus_absent cls repl s :
  Forall (fun c => cls c = false) s -> re_sub (re_plus cls) repl s = s.
Proof.
  induction 1 as [|c s Hc _ IH]; [reflexivity|].
  rewrite re_sub_plus_cons, Hc, IH. reflexivity.
Qed.

Lemma split_no_terminator s cur :
  Forall (fun c => is_terminator c = false) s ->
  split_from re_sentence_end s cur 0 = [cur ++ s].
Proof.
  intros H. revert cur. induction H as [|c s Hc _ IH]; intros cur.
  - simpl. rewrite app_nil_r. reflexivity.
  - cbn [split_from]. rewrite (re_sentence_end_none (c :: s) Hc).
    rewrite IH, <- app_assoc. reflexivity.
Qed.

(** ** Whitespace squeezing *)

Lemma squeeze_true_lstrip s : squeeze true s = squeeze false (lstrip s).
Proof.
  induction s as [|c s IH]; simpl; [reflexivity|].
  destruct (isspace c) eqn:E; [exact IH|].
  simpl. rewrite E. reflexivity.
Qed.

Lemma lstrip_length s : length (lstrip s) <= length s.
Proof.
  induction s as [|c s IH]; simpl; [lia|].
  destruct (isspace c); simpl; lia.
Qed.

(** [re.sub(r'\s+', ' ', s)] is the one-pass squeeze. *)
Lemma re_sub_spaces_squeeze s :
  re_sub re_spaces (py " ") s = squeeze false s.
Proof.
  remember (length s) as n eqn:Hn. revert s Hn.
  induction n as [n IH] using lt_wf_ind. intros [|c s] Hn; [reflexivity|].
  unfold re_spaces. rewrite re_sub_plus_cons. simpl in Hn. simpl.
  destruct (isspace c).
  - fold re_spaces. rewrite drop_run_isspace, squeeze_true_lstrip.
    rewrite (IH (length (lstrip s))); [reflexivity| |reflexivity].
    pose proof (lstrip_length s). lia.
  - fold re_spaces. rewrite (IH (length s)); [reflexivity|lia|reflexivity].
Qed.

Lemma squeeze_Forall (P : N -> Prop) prev s :
  P 32%N -> Forall P s -> Forall P (squeeze prev s).
Proof.
  intros H32 H. revert prev. induction H as [|c s Hc _ IH]; intros prev; simpl.
  - constructor.
  - destruct (isspace c); [destruct prev|]; auto.
Qed.

Lemma squeeze_plain_spaces prev s : plain_spaces (squeeze prev s).
Proof.
  revert prev. induction s as [|c s IH]; intros prev; simpl.
  - constructor.
  - destruct (isspace c) eqn:E; [destruct prev|].
    + apply IH.
    + constructor; [reflexivity | apply IH].
    + constructor; [congruence | apply IH].
Qed.

Lemma tidy_squeeze prev s : tidy prev (squeeze prev s) = true.
Proof.
  revert prev. induction s as [|c s IH]; intros prev; simpl; [reflexivity|].
  destruct (isspace c) eqn:E; [destruct prev|].
  - apply IH.
  - simpl. apply IH.
  - simpl. rewrite E. apply IH.
Qed.

Lemma squeeze_tidy prev s : tidy prev s = true -> squeeze prev s = s.
Proof.
  revert prev. induction s as [|c s IH]; intros prev; simpl; [reflexivity|].
  destruct (isspace c) eqn:E.
  - intros H. apply andb_prop in H as [H H3]. apply andb_prop in H as [H1 H2].
    apply N.eqb_eq in H1. subst c.
    destruct prev; [discriminate H2|]. rewrite (IH true H3). reflexivity.
  - intros H. rewrite (IH false H). reflexivity.
Qed.

Lemma squeeze_fixed_iff s : squeeze false s = s <-> tidy false s = true.
Proof.
  split; [|apply squeeze_tidy].
  intros H. rewrite <- H. apply tidy_squeeze.
Qed.

Lemma tidy_weaken s : tidy true s = true -> tidy false s = true.
Proof.
  destruct s as [|c s]; simpl; [reflexivity|].
  destruct (isspace c); [|exact (fun H => H)].
  rewrite andb_false_r. discriminate.
Qed.

Lemma tidy_lstrip s : tidy false s = true -> tidy false (lstrip s) = true.
Proof.
  induction s as [|c s IH]; simpl; [reflexivity|].
  destruct (isspace c) eqn:E.
  - intros H. apply IH. apply andb_prop in H as [_ H]. apply tidy_weaken, H.
  - intros H. simpl. rewrite E. exact H.
Qed.

Lemma tidy_rstrip prev s : tidy prev s = true -> tidy prev (rstrip s) = true.
Proof.
  revert prev. induction s as [|c s IH]; intros prev; [reflexivity|].
  rewrite rstrip_cons. intros H.
  destruct (rstrip s) as [|d r] eqn:Er.
  - destruct (isspace c) eqn:E; [reflexivity|]. simpl. rewrite E. reflexivity.
  - simpl in H |- *. destruct (isspace c).
    + apply andb_prop in H as [H1 H2]. rewrite H1. simpl. apply (IH true H2).
    + apply (IH false H).
Qed.

Lemma tidy_strip s : tidy false s = true -> tidy false (strip s) = true.
Proof. intros H. apply tidy_rstrip, tidy_lstrip, H. Qed.

Lemma isspace_32 : isspace 32%N = true.
Proof. reflexivity. Qed.

(** With plain spaces as the only whitespace, being tidy is having no two
    spaces in a row. *)
Lemma tidy_adjacent prev s :
  plain_spaces s ->
  tidy prev s = true <->
  adjacent_spaces s = false /\ (prev = true -> front_ok s).
Proof.
  intros H. revert prev. induction H as [|c s Hc Hs IH]; intros prev.
  - simpl. split; [intros _; split; [reflexivity | intros _; exact I] | reflexivity].
  - cbn [tidy adjacent_spaces front_ok]. destruct (isspace c) eqn:E.
    + rewrite (Hc eq_refl) in *. rewrite N.eqb_refl. simpl.
      rewrite andb_true_iff, (IH true), negb_true_iff.
      destruct s as [|d s'].
      * simpl. split.
        -- intros [Hp _]. split; [reflexivity|]. intros ->. discriminate Hp.
        -- intros [_ Hp]. split; [|split; [reflexivity | intros _; exact I]].
           destruct prev; [specialize (Hp eq_refl); discriminate Hp | reflexivity].
      * cbn [front_ok]. inversion Hs as [|? ? Hd _]; subst.
        rewrite orb_false_iff. split.
        -- intros (Hp & Ha & Hf). specialize (Hf eq_refl). split.
           ++ split; [|exact Ha]. apply N.eqb_neq. intros ->.
              rewrite isspace_32 in Hf. discriminate Hf.
           ++ intros ->. discriminate Hp.
        -- intros ((Hd32 & Ha) & Hp). split; [|split; [exact Ha|]].
           ++ destruct prev; [specialize (Hp eq_refl); discriminate Hp | reflexivity].
           ++ intros _. destruct (isspace d) eqn:Ed; [|reflexivity].
              rewrite (Hd eq_refl) in Hd32. discriminate Hd32.
    + rewrite (IH false).
      assert (Hc32 : (c =? 32)%N = false).
      { apply N.eqb_neq. intros ->. rewrite isspace_32 in E. discriminate E. }
      destruct s as [|d s'].
      * simpl. split; [intros _; split; [reflexivity | intros _; reflexivity] | intros _; split; [reflexivity | discriminate]].
      * rewrite Hc32. simpl. split.
        -- intros [Ha _]. split; [exact Ha | intros _; reflexivity].
        -- intros [Ha _]. split; [exact Ha | discriminate].
Qed.

(** ** Predicates that survive [strip] and [squeeze] *)

Lemma lstrip_Forall (P : N -> Prop) s : Forall P s -> Forall P (lstrip s).
Proof.
  induction 1 as [|c s Hc Hs IH]; simpl; [constructor|].
  destruct (isspace c); [exact IH | constructor; assumption].
Qed.

Lemma strip_Forall (P : N -> Prop) s : Forall P s -> Forall P (strip s).
Proof.
  intros H. unfold strip, rstrip.
  apply Forall_reverse, lstrip_Forall, Forall_reverse, lstrip_Forall, H.
Qed.

Lemma front_ok_head s :
  front_ok s <-> forall c, head s = Some c -> isspace c = false.
Proof.
  destruct s as [|d s]; simpl.
  - split; [intros _ c Hc; discriminate Hc | intros _; exact I].
  - split; [intros H c [= <-]; exact H | intros H; apply H; reflexivity].
Qed.

Lemma back_ok_last s :
  front_ok (reverse s) <-> forall c, last s = Some c -> isspace c = false.
Proof. rewrite front_ok_head, head_reverse. reflexivity. Qed.

Lemma squeeze_front_ok s : front_ok s -> front_ok (squeeze false s).
Proof.
  destruct s as [|c s]; simpl; [intros _; exact I|].
  intros E. rewrite E. exact E.
Qed.

Lemma squeeze_last prev s c :
  last s = Some c -> isspace c = false -> last (squeeze prev s) = Some c.
Proof.
  intros Hl Hc. revert prev Hl.
  induction s as [|d s IH]; intros prev Hl; [discriminate Hl|].
  rewrite last_cons in Hl. destruct (last s) as [e|] eqn:El.
  - injection Hl as ->. simpl.
    destruct (isspace d); [destruct prev|];
      rewrite ?last_cons, ?(IH _ eq_refl); try reflexivity; apply IH; reflexivity.
  - injection Hl as ->. apply last_None in El. subst s.
    simpl. rewrite Hc. reflexivity.
Qed.

Lemma squeeze_stripped s : stripped s -> stripped (squeeze false s).
Proof.
  intros [H1 H2]. split; [apply squeeze_front_ok, H1|].
  apply back_ok_last. intros c Hc.
  destruct (last s) as [d|] eqn:El.
  - assert (Hd : isspace d = false) by (apply (proj1 (back_ok_last s) H2); assumption).
    rewrite (squeeze_last false s d El Hd) in Hc. injection Hc as <-. exact Hd.
  - apply last_None in El. subst s. discriminate Hc.
Qed.

(** ** The substitution table *)

Lemma str_replace_Forall (P Q : N -> Prop) old new s :
  Forall Q new ->
  (forall c, P c -> c <> old -> Q c) ->
  Forall P s -> Forall Q (str_replace old new s).
Proof.
  intros Hnew HPQ H. unfold str_replace.
  induction H as [|c s Hc _ IH]; simpl; [constructor|].
  apply Forall_app. split; [|exact IH].
  destruct (N.eqb_spec c old) as [->|Hne]; [exact Hnew|].
  constructor; [apply HPQ; assumption | constructor].
Qed.

Lemma replace_all_Forall (P : N -> Prop) table s :
  (forall old new, In (old, new) table -> Forall P new) ->
  Forall (fun c => P c \/ In c (map fst table)) s ->
  Forall P (replace_all table s).
Proof.
  revert s. induction table as [|[old new] table IH]; intros s Hnew Hs.
  - simpl. eapply Forall_impl; [exact Hs|].
    simpl. intros c [H|[]]. exact H.
  - unfold replace_all. cbn [fold_left]. apply IH.
    + intros o n Hin. apply (Hnew o n). right. exact Hin.
    + eapply str_replace_Forall; [| |exact Hs].
      * eapply Forall_impl; [apply (Hnew old new); left; reflexivity|].
        simpl. intros c Hc. left. exact Hc.
      * simpl. intros c [Hc|[Hc|Hc]] Hne; [left; exact Hc | congruence | right; exact Hc].
Qed.

Lemma str_replace_absent old new s :
  Forall (fun c => (c =? old)%N = false) s -> str_replace old new s = s.
Proof.
  unfold str_replace. induction 1 as [|c s Hc _ IH]; simpl; [reflexivity|].
  rewrite Hc, IH. reflexivity.
Qed.

Lemma replace_all_absent table s :
  (forall old new, In (old, new) table ->
     Forall (fun c => (c =? old)%N = false) s) ->
  replace_all table s = s.
Proof.
  induction table as [|[old new] table IH]; intros H; [reflexivity|].
  unfold replace_all. cbn [fold_left].
  rewrite str_replace_absent; [|apply (H old new); left; reflexivity].
  apply IH. intros o n Hin. apply (H o n). right. exact Hin.
Qed.

Lemma is_symbol_spec c :
  is_symbol c = true <-> In c (map fst replacements).
Proof.
  unfold is_symbol. rewrite existsb_exists, in_map_iff. split.
  - intros ([old new] & Hin & Hc). apply N.eqb_eq in Hc. subst c.
    exists (old, new). split; [reflexivity | exact Hin].
  - intros ([old new] & <- & Hin). exists (old, new).
    split; [exact Hin | apply N.eqb_refl].
Qed.

(** None of the spoken phrases contains a symbol of the table, and their
    only whitespace is the plain space. *)
Lemma replacements_clean old new :
  In (old, new) replacements ->
  Forall (fun c => is_symbol c = false) new /\
  Forall (fun c => isspace c = true -> c = 32%N) new.
Proof.
  assert (Hall : forallb (fun '(_, new) =>
            forallb (fun c => negb (is_symbol c)
                              && (negb (isspace c) || (c =? 32)%N)) new)
            replacements = true) by (vm_compute; reflexivity).
  intros Hin. rewrite forallb_forall in Hall. specialize (Hall _ Hin).
  simpl in Hall. rewrite forallb_forall in Hall.
  split; apply Forall_forall; intros c Hc; apply list_elem_of_In in Hc;
    specialize (Hall c Hc); apply andb_prop in Hall as [H1 H2].
  - apply negb_true_iff, H1.
  - intros Hs. rewrite Hs in H2. simpl in H2. apply N.eqb_eq, H2.
Qed.

(** After the substitutions no symbol of the table is left. *)
Lemma replace_all_symbol_free s : symbol_free (replace_all replacements s).
Proof.
  apply replace_all_Forall.
  - intros old new Hin. apply (replacements_clean old new Hin).
  - apply Forall_forall. intros c _.
    destruct (is_symbol c) eqn:E; [right | left; reflexivity].
    apply is_symbol_spec, E.
Qed.

Lemma replace_all_plain_spaces s :
  plain_spaces s -> plain_spaces (replace_all replacements s).
Proof.
  intros H. apply replace_all_Forall.
  - intros old new Hin. apply (replacements_clean old new Hin).
  - eapply Forall_impl; [exact H|]. simpl. intros c Hc. left. exact Hc.
Qed.

(** On a text without symbols the substitutions change nothing. *)
Lemma replace_all_symbol_free_id s :
  symbol_free s -> replace_all replacements s = s.
Proof.
  intros H. apply replace_all_absent. intros old new Hin.
  eapply Forall_impl; [exact H|]. simpl. intros c Hc.
  apply N.eqb_neq. intros ->.
  assert (Hs : is_symbol old = true).
  { apply is_symbol_spec, in_map_iff. exists (old, new). auto. }
  congruence.
Qed.

(** ** [clean_text] *)

(** The newline substitution comes after the whitespace one, which has
    already turned every newline into a space: it never fires. *)
Lemma newline_pass_dead s :
  re_sub re_newlines (py ". ") (re_sub re_spaces (py " ") s)
  = re_sub re_spaces (py " ") s.
Proof.
  rewrite re_sub_spaces_squeeze. unfold re_newlines.
  apply re_sub_plus_absent.
  eapply Forall_impl; [apply (squeeze_plain_spaces false s)|].
  simpl. intros c Hc. destruct (is_newline c) eqn:E; [|reflexivity].
  rewrite (Hc (newline_isspace c E)) in E. discriminate E.
Qed.

Lemma clean_text_eq x :
  clean_text x = strip (replace_all replacements (squeeze false x)).
Proof.
  unfold clean_text. rewrite newline_pass_dead, re_sub_spaces_squeeze.
  reflexivity.
Qed.

Lemma clean_text_stripped x : stripped (clean_text x).
Proof. rewrite clean_text_eq. apply strip_stripped. Qed.

Lemma clean_text_symbol_free x : symbol_free (clean_text x).
Proof. rewrite clean_text_eq. apply strip_Forall, replace_all_symbol_free. Qed.

Lemma clean_text_plain_spaces x : plain_spaces (clean_text x).
Proof.
  rewrite clean_text_eq.
  apply strip_Forall, replace_all_plain_spaces, squeeze_plain_spaces.
Qed.

(** A second pass only squeezes the runs of spaces the first one left. *)
Lemma clean_text_twice x :
  clean_text (clean_text x) = squeeze false (clean_text x).
Proof.
  rewrite (clean_text_eq (clean_text x)).
  rewrite replace_all_symbol_free_id.
  - apply strip_id, squeeze_stripped, clean_text_stripped.
  - apply squeeze_Forall; [reflexivity | apply clean_text_symbol_free].
Qed.

(** C2, at the input ["a\nb"]: the paragraph break comes out as a plain
    space, not as the sentence boundary [". "]. *)
Theorem clean_text_newline_lost :
  clean_text (py "a" ++ [10%N] ++ py "b") = py "a b" /\
  clean_text (py "a" ++ [10%N] ++ py "b") <> py "a. b".
Proof. split; [vm_compute; reflexivity | vm_compute; discriminate]. Qed.

(** C4 as stated fails at ["a &b"]: the first pass gives ["a  és b"] with
    two spaces, which the second pass squeezes. *)
Lemma clean_text_not_idempotent :
  clean_text (clean_text (py "a &b")) <> clean_text (py "a &b").
Proof. vm_compute. discriminate. Qed.

(** C4, amended: a second [clean_text] returns the same text exactly when
    the first result has no two spaces in a row. *)
Theorem clean_text_idempotent_iff x :
  clean_text (clean_text x) = clean_text x <->
  adjacent_spaces (clean_text x) = false.
Proof.
  rewrite clean_text_twice, squeeze_fixed_iff.
  rewrite (tidy_adjacent false _ (clean_text_plain_spaces x)).
  split; [intros [H _]; exact H | intros H; split; [exact H | discriminate]].
Qed.

(** X6: [clean_text] is idempotent on the texts that contain none of the
    substituted symbols. *)
Lemma clean_text_idempotent_symbol_free x :
  symbol_free x -> clean_text (clean_text x) = clean_text x.
Proof.
  intros Hx. rewrite clean_text_twice. apply squeeze_tidy.
  rewrite clean_text_eq, replace_all_symbol_free_id.
  - apply tidy_strip, tidy_squeeze.
  - apply squeeze_Forall; [reflexivity | exact Hx].
Qed.

(** X7: from the second application of [clean_text] on, nothing changes
    any more. *)
Lemma clean_text_stable x :
  clean_text (clean_text (clean_text x)) = clean_text (clean_text x).
Proof.
  rewrite (clean_text_twice (clean_text x)), clean_text_twice.
  apply squeeze_tidy, tidy_squeeze.
Qed.

(** ** What [strip] and [re.split] keep *)

Lemma lstrip_filter (P : N -> Prop) `{!forall c, Decision (P c)} s :
  (forall c, P c -> isspace c = false) ->
  filter P (lstrip s) = filter P s.
Proof.
  intros HP. induction s as [|c s IH]; simpl; [reflexivity|].
  destruct (isspace c) eqn:E; [|reflexivity].
  rewrite IH, filter_cons_False; [reflexivity|].
  intros Hc. rewrite (HP c Hc) in E. discriminate E.
Qed.

Lemma strip_filter (P : N -> Prop) `{!forall c, Decision (P c)} s :
  (forall c, P c -> isspace c = false) ->
  filter P (strip s) = filter P s.
Proof.
  intros HP. unfold strip, rstrip.
  rewrite filter_reverse, (lstrip_filter P _ HP), filter_reverse.
  rewrite reverse_involutive. apply (lstrip_filter P _ HP).
Qed.

Lemma content_strip s : content (strip s) = content s.
Proof.
  apply strip_filter. intros c Hc. apply orb_false_elim in Hc as [Hc _]. exact Hc.
Qed.

Lemma content_app a b : content (a ++ b) = content a ++ content b.
Proof. apply filter_app. Qed.

Lemma content_sep c s :
  (isspace c || is_terminator c) = true -> content (c :: s) = content s.
Proof.
  intros H. unfold content. apply filter_cons_False. rewrite H. discriminate.
Qed.

Lemma strip_inked s : inked s -> strip s <> [].
Proof.
  intros (c & Hin & Hc) Hs.
  assert (H : filter (fun c => isspace c = false) (strip s)
              = filter (fun c => isspace c = false) s).
  { apply strip_filter. auto. }
  rewrite Hs in H. simpl in H. symmetry in H.
  apply (filter_nil_not_elem_of _ _ c H Hc Hin).
Qed.

Lemma ended_inked s : s <> [] -> front_ok (reverse s) -> inked s.
Proof.
  intros Hne Hb. apply last_is_Some in Hne as [c Hc].
  exists c. split; [apply last_Some_elem_of, Hc|].
  apply (proj1 (back_ok_last s) Hb c Hc).
Qed.

Lemma back_ok_app a b :
  b <> [] -> front_ok (reverse (a ++ b)) <-> front_ok (reverse b).
Proof.
  intros Hne. rewrite !back_ok_last, last_app.
  apply last_is_Some in Hne as [d Hd]. rewrite Hd. reflexivity.
Qed.

(** The pieces of [re.split] keep all the content of the text, in order. *)
Lemma split_content s cur k :
  sep_prefix k s ->
  content (concat (split_from re_sentence_end s cur k))
  = content cur ++ content s.
Proof.
  revert cur k. induction s as [|c s IH]; intros cur k Hk.
  - cbn [split_from concat]. rewrite content_app. reflexivity.
  - destruct k as [|k]; cbn [split_from].
    + destruct (re_sentence_end (c :: s)) as [[|n]|] eqn:E.
      * rewrite (IH _ 0 (sep_prefix_0 s)), content_app, <- app_assoc.
        rewrite <- content_app. reflexivity.
      * apply re_sentence_end_sep, sep_prefix_S in E as (Hc & Hn & _).
        cbn [concat]. rewrite content_app, (IH _ n Hn), (content_sep c s Hc).
        reflexivity.
      * rewrite (IH _ 0 (sep_prefix_0 s)), content_app, <- app_assoc.
        rewrite <- content_app. reflexivity.
    + apply sep_prefix_S in Hk as (Hc & Hk & _).
      rewrite (IH _ k Hk), (content_sep c s Hc). reflexivity.
Qed.

Lemma re_split_content s :
  content (concat (re_split re_sentence_end s)) = content s.
Proof. unfold re_split. rewrite (split_content s [] 0 (sep_prefix_0 s)). reflexivity. Qed.

(** A text that does not end in whitespace leaves a piece that is not
    blank. *)
Lemma split_inked s cur k :
  sep_prefix k s ->
  (forall c, last s = Some c -> isspace c = false) ->
  (s = [] -> inked cur) ->
  Exists inked (split_from re_sentence_end s cur k).
Proof.
  revert cur k. induction s as [|c s IH]; intros cur k Hk Hl Hcur.
  - simpl. apply Exists_cons_hd, Hcur. reflexivity.
  - assert (Htail : forall k', sep_prefix (S k') (c :: s) ->
              s <> [] /\ sep_prefix k' s).
    { intros k' Hsep. apply sep_prefix_S in Hsep as (_ & Hk' & H0). split; [|exact Hk'].
      intros ->. destruct Hk' as [Hlt _].
      destruct k' as [|k']; [|destruct (Hlt 0) as (d & Hd & _); [lia | discriminate Hd]].
      specialize (H0 eq_refl). rewrite (Hl c eq_refl) in H0. discriminate H0. }
    assert (Hl' : forall d, last s = Some d -> isspace d = false).
    { intros d Hd. apply Hl. rewrite last_cons, Hd. reflexivity. }
    destruct k as [|k]; cbn [split_from].
    + destruct (re_sentence_end (c :: s)) as [[|n]|] eqn:E.
      * apply IH; [apply sep_prefix_0 | exact Hl' |].
        intros ->. exists c. split; [apply elem_of_app; right; constructor | apply Hl; reflexivity].
      * apply re_sentence_end_sep, Htail in E as [Hne Hn].
        apply Exists_cons_tl, IH; [exact Hn | exact Hl' | contradiction].
      * apply IH; [apply sep_prefix_0 | exact Hl' |].
        intros ->. exists c. split; [apply elem_of_app; right; constructor | apply Hl; reflexivity].
    + apply Htail in Hk as [Hne Hk].
      apply IH; [exact Hk | exact Hl' | contradiction].
Qed.

Lemma re_split_inked s :
  s <> [] -> front_ok (reverse s) ->
  Exists inked (re_split re_sentence_end s).
Proof.
  intros Hne Hb. apply split_inked; [apply sep_prefix_0 | | contradiction].
  apply back_ok_last, Hb.
Qed.

(** ** [split_text_into_chunks] *)

Lemma slice_pos k s :
  (0 < k)%Z ->
  slice_to k s = take (Z.to_nat k) s /\ slice_from k s = drop (Z.to_nat k) s.
Proof.
  intros H. unfold slice_to, slice_from.
  destruct (Z.leb_spec 0 k); [split; reflexivity | lia].
Qed.

Lemma hard_split_unfold fuel N chunks s :
  hard_split fuel N chunks s =
  if (len s >? N)%Z then
    match fuel with
    | 0 => None
    | S fuel' =>
        hard_split fuel' N (chunks ++ [slice_to N s]) (slice_from N s)
    end
  else Some (chunks, s).
Proof. destruct fuel; reflexivity. Qed.

(** For a positive limit the slicing loop ends within [length s] turns:
    it cuts slices of exactly [N] characters off the front and leaves a
    rest of at most [N]. *)
Lemma hard_split_total fuel N chunks s :
  (0 < N)%Z -> length s <= fuel ->
  exists slices rest,
    hard_split fuel N chunks s = Some (chunks ++ slices, rest) /\
    concat slices ++ rest = s /\
    Forall (fun sl => len sl = N) slices /\
    (len rest <= N)%Z /\
    (s <> [] -> rest <> []).
Proof.
  intros HN. revert chunks s.
  induction fuel as [|fuel IH]; intros chunks s Hf;
    rewrite hard_split_unfold; destruct (Z.gtb_spec (len s) N) as [Hgt|Hle].
  - unfold len in Hgt. lia.
  - exists [], s. rewrite app_nil_r. repeat split; auto.
  - destruct (slice_pos N s HN) as [-> ->]. unfold len in Hgt.
    destruct (IH (chunks ++ [take (Z.to_nat N) s]) (drop (Z.to_nat N) s))
      as (slices & rest & Hhs & Hcat & Hsl & Hrest & Hne).
    { rewrite length_drop. lia. }
    exists (take (Z.to_nat N) s :: slices), rest.
    rewrite Hhs, <- app_assoc. repeat split; auto.
    + cbn [concat]. rewrite <- app_assoc, Hcat. apply take_drop.
    + constructor; [|exact Hsl]. unfold len. rewrite length_take_le; lia.
    + intros _. apply Hne. intros Hd. apply (f_equal length) in Hd.
      rewrite length_drop in Hd. simpl in Hd. lia.
  - exists [], s. rewrite app_nil_r. repeat split; auto.
Qed.

(** For a limit that is not positive the loop never ends on a non-empty
    sentence, whatever the number of turns allowed. *)
Lemma hard_split_diverges fuel N chunks s :
  (N <= 0)%Z -> s <> [] -> hard_split fuel N chunks s = None.
Proof.
  intros HN. revert chunks s.
  induction fuel as [|fuel IH]; intros chunks s Hs;
    rewrite hard_split_unfold;
    (destruct (Z.gtb_spec (len s) N) as [Hgt|Hle];
      [|destruct s; [contradiction | unfold len in Hle; simpl in Hle; lia]]).
  - reflexivity.
  - apply IH. intros Hd. apply (f_equal length) in Hd.
    unfold slice_from in Hd. destruct (Z.leb_spec 0 N).
    + replace N with 0%Z in Hd by lia. simpl in Hd.
      destruct s; [contradiction | discriminate Hd].
    + rewrite length_drop in Hd. simpl in Hd.
      destruct s; [contradiction | simpl in Hd; lia].
Qed.

Lemma content_joiner : content (py ". ") = [].
Proof. reflexivity. Qed.

Local Ltac content_norm :=
  repeat (progress (rewrite ?concat_app, ?content_app, ?content_strip,
                      ?content_joiner, ?app_nil_r, <- ?app_assoc;
                    cbn [concat app])).

(** One turn of the sentence loop keeps the chunks non-empty, keeps the
    buffer free of trailing whitespace, and adds the content of the
    sentence after what was there. *)
Lemma chunk_step_inv N chunks cur s :
  (0 < N)%Z ->
  Forall (fun c => c <> []) chunks -> front_ok (reverse cur) ->
  exists chunks' cur',
    chunk_step N (chunks, cur) s = Some (chunks', cur') /\
    Forall (fun c => c <> []) chunks' /\ front_ok (reverse cur') /\
    content (concat chunks' ++ cur')
    = content (concat chunks ++ cur) ++ content s /\
    (cur <> [] \/ inked s -> cur' <> []).
Proof.
  intros HN Hch Hcur. unfold chunk_step.
  pose proof (strip_stripped s) as [_ Hb].
  pose proof (content_strip s) as Hcs.
  pose proof (strip_inked s) as Hink.
  destruct (strip s) as [|c0 t] eqn:Es; cbn [truthy negb].
  - exists chunks, cur. repeat split; auto.
    + rewrite <- Hcs. content_norm. reflexivity.
    + intros [H|H]; [exact H | contradiction (Hink H eq_refl)].
  - set (sentence := c0 :: t) in *.
    assert (Hsne : sentence <> []) by discriminate.
    destruct (len cur + len sentence + 2 >? N)%Z.
    + destruct cur as [|d cur']; cbn [truthy].
      * destruct (hard_split_total (length sentence) N chunks sentence HN (le_n _))
          as (slices & rest & Hhs & Hcat & Hsl & Hrest & Hne).
        rewrite Hhs. exists (chunks ++ slices), rest. repeat split.
        -- apply Forall_app. split; [exact Hch|].
           eapply Forall_impl; [exact Hsl|]. simpl. intros sl Hl ->.
           unfold len in Hl. simpl in Hl. lia.
        -- apply (back_ok_app (concat slices) rest (Hne Hsne)).
           rewrite Hcat. exact Hb.
        -- rewrite <- Hcs, <- Hcat. content_norm. reflexivity.
        -- intros _. apply Hne, Hsne.
      * exists (chunks ++ [strip (d :: cur')]), sentence. repeat split.
        -- apply Forall_app. split; [exact Hch|]. constructor; [|constructor].
           apply strip_inked, ended_inked; [discriminate | exact Hcur].
        -- exact Hb.
        -- rewrite <- Hcs. content_norm. reflexivity.
        -- intros _. exact Hsne.
    + exists chunks, (if truthy cur then cur ++ py ". " ++ sentence else sentence).
      repeat split; auto.
      * destruct cur; cbn [truthy]; [exact Hb|].
        rewrite app_assoc. apply (back_ok_app _ sentence Hsne), Hb.
      * rewrite <- Hcs. destruct cur; cbn [truthy]; content_norm; reflexivity.
      * intros _. destruct cur; cbn [truthy]; [exact Hsne | discriminate].
Qed.

Lemma chunk_loop_inv N sentences chunks cur :
  (0 < N)%Z ->
  Forall (fun c => c <> []) chunks -> front_ok (reverse cur) ->
  exists chunks' cur',
    chunk_loop N sentences (chunks, cur) = Some (chunks', cur') /\
    Forall (fun c => c <> []) chunks' /\ front_ok (reverse cur') /\
    content (concat chunks' ++ cur')
    = content (concat chunks ++ cur) ++ content (concat sentences) /\
    (cur <> [] \/ Exists inked sentences -> cur' <> []).
Proof.
  intros HN. revert chunks cur.
  induction sentences as [|s rest IH]; intros chunks cur Hch Hcur.
  - exists chunks, cur. cbn [chunk_loop concat]. repeat split; auto.
    + content_norm. reflexivity.
    + intros [H|H]; [exact H | inversion H].
  - destruct (chunk_step_inv N chunks cur s HN Hch Hcur)
      as (chunks1 & cur1 & Hstep & Hch1 & Hcur1 & Hcont1 & Hne1).
    destruct (IH chunks1 cur1 Hch1 Hcur1)
      as (chunks2 & cur2 & Hloop & Hch2 & Hcur2 & Hcont2 & Hne2).
    exists chunks2, cur2. cbn [chunk_loop]. rewrite Hstep. repeat split; auto.
    + rewrite Hcont2, Hcont1. content_norm. reflexivity.
    + intros [H|H]; apply Hne2.
      * left. apply Hne1. left. exact H.
      * inversion H; subst; [left; apply Hne1; right; assumption | right; assumption].
Qed.

Lemma strip_length s : (len (strip s) <= len s)%Z.
Proof.
  unfold len, strip, rstrip. rewrite length_reverse.
  pose proof (lstrip_length (reverse (lstrip s))) as H1.
  rewrite length_reverse in H1. pose proof (lstrip_length s). lia.
Qed.

Lemma within_limit_strip N sentences c :
  within_limit N sentences c -> within_limit N sentences (strip c).
Proof.
  intros [H|(s & Hs & -> & Hlen)].
  - left. pose proof (strip_length c). lia.
  - rewrite strip_idem. right. exists s. auto.
Qed.

(** What one turn of the sentence loop does to the lengths: a chunk over
    the limit can only be a whole sentence that arrived while the buffer
    was not empty. *)
Lemma chunk_step_len N sentences chunks cur s chunks' cur' :
  (0 < N)%Z -> s ∈ sentences ->
  Forall (within_limit N sentences) chunks ->
  within_limit N sentences cur ->
  chunk_step N (chunks, cur) s = Some (chunks', cur') ->
  Forall (within_limit N sentences) chunks' /\
  within_limit N sentences cur'.
Proof.
  intros HN Hs Hch Hcur. unfold chunk_step.
  destruct (strip s) as [|c0 t] eqn:Es; cbn [truthy negb].
  - intros [= <- <-]. auto.
  - rewrite <- Es.
    assert (Hsent : within_limit N sentences (strip s)).
    { destruct (Z.le_gt_cases (len (strip s)) N); [left; assumption|].
      right. exists s. auto. }
    destruct (Z.gtb_spec (len cur + len (strip s) + 2) N) as [Hgt|Hle].
    + destruct cur as [|d cur0]; cbn [truthy].
      * destruct (hard_split_total (length (strip s)) N chunks (strip s) HN (le_n _))
          as (slices & rest & -> & _ & Hsl & Hrest & _).
        intros [= <- <-]. split; [|left; exact Hrest].
        apply Forall_app. split; [exact Hch|].
        eapply Forall_impl; [exact Hsl|]. simpl. intros sl Hl. left. lia.
      * intros [= <- <-]. split; [|exact Hsent].
        apply Forall_app. split; [exact Hch|].
        constructor; [apply within_limit_strip, Hcur | constructor].
    + intros [= <- <-]. split; [exact Hch|]. left.
      destruct cur; cbn [truthy].
      * unfold len in *. simpl in Hle. lia.
      * unfold len in *. cbn [app length] in *.
        rewrite length_app. cbn [length]. lia.
Qed.

Lemma chunk_loop_len N sentences todo chunks cur chunks' cur' :
  (0 < N)%Z -> todo ⊆ sentences ->
  Forall (within_limit N sentences) chunks ->
  within_limit N sentences cur ->
  chunk_loop N todo (chunks, cur) = Some (chunks', cur') ->
  Forall (within_limit N sentences) chunks' /\
  within_limit N sentences cur'.
Proof.
  intros HN. revert chunks cur.
  induction todo as [|s todo IH]; intros chunks cur Hsub Hch Hcur.
  - cbn [chunk_loop]. intros [= <- <-]. auto.
  - cbn [chunk_loop].
    destruct (chunk_step N (chunks, cur) s) as [[chunks1 cur1]|] eqn:Hstep;
      [|discriminate].
    destruct (chunk_step_len N sentences chunks cur s chunks1 cur1)
      as [Hch1 Hcur1]; auto.
    { apply Hsub. left. }
    apply IH; auto. intros x Hx. apply Hsub. right. exact Hx.
Qed.

(** X8: for a positive limit every chunk respects it, except the chunks
    that are one whole sentence of the text, longer than the limit by
    itself. *)
Lemma chunk_lengths text N chunks :
  (0 < N)%Z -> split_text_into_chunks text N = Some chunks ->
  Forall (within_limit N (re_split re_sentence_end text)) chunks.
Proof.
  intros HN. unfold split_text_into_chunks.
  destruct (chunk_loop N (re_split re_sentence_end text) ([], []))
    as [[chunks0 cur]|] eqn:Hloop; [|discriminate].
  destruct (chunk_loop_len N _ _ [] [] chunks0 cur HN (reflexivity _)
              (Forall_nil_2 _) (or_introl (Z.lt_le_incl _ _ HN)) Hloop)
    as [Hch Hcur].
  intros [= <-]. destruct cur; cbn [truthy]; [exact Hch|].
  apply Forall_app. split; [exact Hch|].
  constructor; [apply within_limit_strip, Hcur | constructor].
Qed.

(** The chunker on any text, for a positive limit: it returns; no chunk is
    empty; the chunks carry the content of the text in text order; and a
    text that ends in something else than whitespace gives at least one
    chunk. *)
Lemma split_text_into_chunks_spec text N :
  (0 < N)%Z ->
  exists chunks,
    split_text_into_chunks text N = Some chunks /\
    Forall (fun c => c <> []) chunks /\
    content (concat chunks) = content text /\
    (text <> [] -> front_ok (reverse text) -> chunks <> []).
Proof.
  intros HN. unfold split_text_into_chunks.
  destruct (chunk_loop_inv N (re_split re_sentence_end text) [] [] HN)
    as (chunks & cur & Hloop & Hch & Hcur & Hcont & Hne);
    [constructor | exact I |].
  rewrite Hloop. rewrite re_split_content in Hcont. simpl in Hcont.
  destruct cur as [|d cur]; cbn [truthy].
  - exists chunks. repeat split; auto.
    + rewrite app_nil_r in Hcont. exact Hcont.
    + intros Ht Hb. exfalso. apply Hne; [|reflexivity].
      right. apply re_split_inked; assumption.
  - exists (chunks ++ [strip (d :: cur)]). repeat split.
    + apply Forall_app. split; [exact Hch|]. constructor; [|constructor].
      apply strip_inked, ended_inked; [discriminate | exact Hcur].
    + rewrite <- Hcont. content_norm. reflexivity.
    + intros _ _ H. apply app_eq_nil in H as [_ H]. discriminate H.
Qed.

(** C6: on a non-empty normalised text and a positive limit the chunker
    returns at least one chunk, none of them empty, and the chunks carry
    the content of the text in the order of the text. *)
Theorem chunks_of_normalised_text x N :
  (0 < N)%Z -> clean_text x <> [] ->
  exists chunks,
    split_text_into_chunks (clean_text x) N = Some chunks /\
    (1 <= length chunks) /\
    Forall (fun c => c <> []) chunks /\
    content (concat chunks) = content (clean_text x).
Proof.
  intros HN Hx.
  destruct (split_text_into_chunks_spec (clean_text x) N HN)
    as (chunks & Hsplit & Hch & Hcont & Hne).
  exists chunks. repeat split; auto.
  specialize (Hne Hx (proj2 (clean_text_stripped x))).
  destruct chunks; [contradiction | simpl; lia].
Qed.

Lemma chunks_of_normalised_text_witness :
  exists chunks,
    split_text_into_chunks (clean_text (py "Szia!  Hogy vagy?")) 15 = Some chunks /\
    (1 <= length chunks) /\
    Forall (fun c => c <> []) chunks /\
    content (concat chunks) = content (clean_text (py "Szia!  Hogy vagy?")).
Proof.
  apply (chunks_of_normalised_text (py "Szia!  Hogy vagy?") 15).
  - lia.
  - vm_compute. discriminate.
Defined.

(** C10: a text that is empty or all whitespace gives no chunk at all,
    whatever the limit, and the call returns. *)
Theorem blank_text_no_chunks text N :
  Forall (fun c => isspace c = true) text ->
  split_text_into_chunks text N = Some [].
Proof.
  intros H. unfold split_text_into_chunks, re_split.
  rewrite split_no_terminator.
  - cbn [app chunk_loop chunk_step]. rewrite (strip_all_space text H). reflexivity.
  - eapply Forall_impl; [exact H|]. apply isspace_not_terminator.
Qed.

Lemma blank_text_no_chunks_witness :
  split_text_into_chunks (py "  " ++ [10%N; 9%N]) 1000 = Some [].
Proof.
  apply (blank_text_no_chunks (py "  " ++ [10%N; 9%N]) 1000).
  repeat constructor.
Defined.

(** C3, at the text ["ab. cdefghijkl"] with limit 5: the second sentence
    arrives while the buffer holds ["ab"], so it becomes the new buffer
    unsliced and leaves as one chunk of 10 characters. *)
Theorem oversized_sentence_after_buffer :
  split_text_into_chunks (py "ab. cdefghijkl") 5
  = Some [py "ab"; py "cdefghijkl"] /\
  (len (py "cdefghijkl") > 5)%Z.
Proof. split; [vm_compute; reflexivity | reflexivity]. Qed.

(** ** [read_text_file] *)

Section ResolverFacts.
Variable open_read : encoding -> result str.

Lemma try_encodings_hit e rest t :
  succeeds open_read e t -> try_encodings open_read (e :: rest) = Ok t.
Proof.
  intros (raw & Hr & Hs & Hne). cbn [try_encodings]. rewrite Hr, Hs.
  destruct t; [contradiction | reflexivity].
Qed.

Lemma try_encodings_miss e rest :
  (forall t, ~ succeeds open_read e t) ->
  try_encodings open_read (e :: rest) = try_encodings open_read rest.
Proof.
  intros Hno. cbn [try_encodings].
  destruct (open_read e) as [raw|err] eqn:Hr; [|destruct err; reflexivity].
  destruct (strip raw) as [|c t] eqn:Hs; [reflexivity|].
  exfalso. apply (Hno (c :: t)). exists raw. rewrite Hs.
  repeat split; auto; discriminate.
Qed.

Lemma try_encodings_step e :
  (exists t, succeeds open_read e t) \/ (forall t, ~ succeeds open_read e t).
Proof.
  destruct (open_read e) as [raw|err] eqn:Hr.
  - destruct (strip raw) as [|c t] eqn:Hs.
    + right. intros t (raw' & Hr' & Hs' & Hne). congruence.
    + left. exists (c :: t), raw. repeat split; auto; discriminate.
  - right. intros t (raw' & Hr' & _). congruence.
Qed.

Lemma succeeds_unique e t t' :
  succeeds open_read e t -> succeeds open_read e t' -> t = t'.
Proof. intros (r & Hr & Hs & _) (r' & Hr' & Hs' & _). congruence. Qed.

Lemma try_encodings_ok encs t :
  try_encodings open_read encs = Ok t <->
  exists before e after,
    encs = before ++ e :: after /\ succeeds open_read e t /\
    Forall (fun e' => forall t', ~ succeeds open_read e' t') before.
Proof.
  induction encs as [|e0 rest IH].
  - split; [discriminate|]. intros (before & e & after & H & _).
    destruct before; discriminate H.
  - destruct (try_encodings_step e0) as [[t0 Ht0]|Hno].
    + rewrite (try_encodings_hit e0 rest t0 Ht0). split.
      * intros [= <-]. exists [], e0, rest. repeat split; auto.
      * intros (before & e & after & H & Hs & Hb).
        destruct before as [|b before]; simpl in H; injection H as <- _.
        -- f_equal. apply (succeeds_unique e0); assumption.
        -- inversion Hb as [|? ? Hb0 _]; subst. contradiction (Hb0 t0).
    + rewrite (try_encodings_miss e0 rest Hno), IH. split.
      * intros (before & e & after & -> & Hs & Hb).
        exists (e0 :: before), e, after. repeat split; auto.
      * intros (before & e & after & H & Hs & Hb).
        destruct before as [|b before]; simpl in H; injection H as <- ->.
        -- contradiction (Hno t).
        -- inversion Hb; subst. exists before, e, after. repeat split; auto.
Qed.

Lemma try_encodings_raise encs err :
  try_encodings open_read encs = Raise err <->
  err = ValueError /\
  Forall (fun e => forall t, ~ succeeds open_read e t) encs.
Proof.
  induction encs as [|e0 rest IH].
  - simpl. split; [intros [= <-]; auto | intros [-> _]; reflexivity].
  - destruct (try_encodings_step e0) as [[t0 Ht0]|Hno].
    + rewrite (try_encodings_hit e0 rest t0 Ht0). split; [discriminate|].
      intros [_ H]. inversion H as [|? ? H0 _]; subst. contradiction (H0 t0).
    + rewrite (try_encodings_miss e0 rest Hno), IH. split.
      * intros [-> H]. auto.
      * intros [-> H]. inversion H; subst. auto.
Qed.

(** C7: the candidates are tried in the order utf-8, utf-8-sig,
    iso-8859-2, cp1250; the result is the stripped text of the first
    candidate that decodes to something non-blank, every candidate before
    it having failed to decode or decoded to blank text; and the call
    raises, with [ValueError], exactly when no candidate succeeds. *)
Theorem read_text_file_first_success :
  encodings = [utf_8; utf_8_sig; iso_8859_2; cp1250] /\
  (forall t,
     read_text_file open_read = Ok t <->
     exists before e after,
       encodings = before ++ e :: after /\ succeeds open_read e t /\
       Forall (fun e' => forall t', ~ succeeds open_read e' t') before) /\
  (forall err,
     read_text_file open_read = Raise err <->
     err = ValueError /\
     Forall (fun e => forall t, ~ succeeds open_read e t) encodings).
Proof.
  split; [reflexivity|]. split.
  - intros t. apply try_encodings_ok.
  - intros err. apply try_encodings_raise.
Qed.
End ResolverFacts.

(** ** [concatenate_wav_files] *)

Lemma readable_insert fs out d seg :
  readable fs out seg -> readable (<[out := d]> fs) out seg.
Proof.
  intros [Hne Hl]. split; [exact Hne|].
  rewrite lookup_insert_ne; [exact Hl | congruence].
Qed.

Lemma header_fits_le p n m :
  header_fits p n = true -> m <= n ->
  header_fits p m = true /\ length_fits m = true.
Proof.
  unfold header_fits, length_fits. intros H Hle.
  apply andb_prop in H as [H H5]. apply andb_prop in H as [H H4].
  apply andb_prop in H as [H H3]. apply andb_prop in H as [H H2].
  apply andb_prop in H as [H H1].
  assert (Hm : (36 + Z.of_nat m <? 2 ^ 32)%Z = true).
  { apply Z.ltb_lt. apply Z.ltb_lt in H. lia. }
  rewrite Hm, H1, H2, H3, H4, H5. split; reflexivity.
Qed.

Lemma on_disk_steady p frames w : steady p frames w -> on_disk w = WavFile p frames.
Proof.
  intros (Hp & Hh & Hd & Hf). unfold on_disk.
  rewrite Hp, Hh, Hd, Hf, Nat.eqb_refl. reflexivity.
Qed.

(** A steady writer takes more frames as long as their total length fits
    the header, and stays steady. *)
Lemma writeframes_steady p frames data out w (fs : filesystem) :
  steady p frames w ->
  length_fits (length (frames ++ data)) = true ->
  exists w',
    writeframes out data w fs
    = (<[out := WavFile p (frames ++ data)]> fs, w', Ok tt) /\
    steady p (frames ++ data) w'.
Proof.
  intros (Hp & Hh & Hd & Hf) Hfit.
  unfold writeframes, ensure_header_written. rewrite Hh.
  unfold patchheader. cbn [w_params w_nframes w_header w_junk w_datalength w_frames].
  rewrite Hf, Hd.
  destruct (Nat.eqb (length frames) (length (frames ++ data))) eqn:E.
  - apply Nat.eqb_eq in E. eexists. split.
    + rewrite (on_disk_steady p (frames ++ data)); [reflexivity|].
      repeat split; cbn; auto.
    + repeat split; cbn; auto.
  - rewrite Hfit. eexists. split.
    + rewrite (on_disk_steady p (frames ++ data)); [reflexivity|].
      repeat split; cbn; auto.
    + repeat split; cbn; auto.
Qed.

(** A steady writer that is given frames whose total length does not fit
    the header raises [struct.error]: the new frames are in the file, the
    header still declares the old ones. *)
Lemma writeframes_overflow p frames data out w (fs : filesystem) :
  steady p frames w ->
  length_fits (length (frames ++ data)) = false ->
  length_fits (length frames) = true ->
  exists w',
    writeframes out data w fs
    = (<[out := TailedWav p frames data]> fs, w', Raise StructError).
Proof.
  intros (Hp & Hh & Hd & Hf) Hover Hfit.
  unfold writeframes, ensure_header_written. rewrite Hh.
  unfold patchheader. cbn [w_params w_nframes w_header w_junk w_datalength w_frames].
  rewrite Hf, Hd.
  destruct (Nat.eqb (length frames) (length (frames ++ data))) eqn:E.
  - apply Nat.eqb_eq in E. rewrite <- E in Hover. congruence.
  - rewrite Hover. eexists. unfold on_disk.
    cbn [w_params w_nframes w_header w_junk w_datalength w_frames].
    rewrite Hp, Hh, E, take_app_length, drop_app_length. reflexivity.
Qed.

(** The first segment: its parameters are installed, the header is
    written, declaring the length of its frames, and the frames follow. *)
Lemma first_segment_written p0 fr0 out (fs : filesystem) :
  valid_params p0 = true -> header_fits p0 (length fr0) = true ->
  exists w1 w',
    setparams p0 (length fr0) new_writer = Ok w1 /\
    writeframes out fr0 w1 fs = (<[out := WavFile p0 fr0]> fs, w', Ok tt) /\
    steady p0 fr0 w'.
Proof.
  intros Hvalid Hfit. unfold setparams, new_writer. cbn [w_frames].
  rewrite Hvalid. eexists _, _. split; [reflexivity|].
  unfold writeframes, ensure_header_written.
  cbn [w_params w_nframes w_header w_junk w_datalength w_frames].
  assert (Hn : (if Nat.eqb (length fr0) 0 then length fr0 else length fr0)
               = length fr0) by (destruct (Nat.eqb (length fr0) 0); reflexivity).
  rewrite Hn, Hfit. unfold patchheader.
  cbn [w_params w_nframes w_header w_junk w_datalength w_frames app].
  rewrite Nat.eqb_refl. split.
  - rewrite (on_disk_steady p0 fr0); [reflexivity|]. repeat split; cbn; auto.
  - repeat split; cbn; auto.
Qed.

Lemma wave_close_steady p frames out w (fs : filesystem) :
  steady p frames w ->
  wave_close out w fs = (<[out := WavFile p frames]> fs, Ok tt).
Proof.
  intros Hw. pose proof (on_disk_steady p frames w Hw) as Hdisk.
  destruct Hw as (Hp & Hh & Hd & Hf).
  unfold wave_close, ensure_header_written. rewrite Hh.
  unfold patchheader. rewrite Hd, Hf, Nat.eqb_refl, Hdisk. reflexivity.
Qed.

(** From the second segment on, the loop only appends frames: the format
    of a segment is read and never looked at. *)
Lemma copy_segments_rest p0 out (segs : list segment) i w frames
    (fs : filesystem) :
  steady p0 frames w ->
  fs !! out = Some (WavFile p0 frames) ->
  Forall (readable fs out) segs ->
  length_fits (length (frames ++ seg_frames segs)) = true ->
  exists w',
    copy_segments (map fst segs) (S i) out w fs
    = (<[out := WavFile p0 (frames ++ seg_frames segs)]> fs, w', Ok tt) /\
    steady p0 (frames ++ seg_frames segs) w'.
Proof.
  intros Hw Hout Hsegs Hfit. revert i w frames fs Hw Hout Hsegs Hfit.
  induction segs as [|[f [p fr]] segs IH]; intros i w frames fs Hw Hout Hsegs Hfit.
  - exists w. cbn [map copy_segments]. unfold seg_frames. cbn [map concat].
    rewrite app_nil_r, (insert_id _ _ _ Hout). split; [reflexivity | exact Hw].
  - inversion Hsegs as [|? ? [Hne Hf] Hrest]; subst. simpl in Hne, Hf.
    assert (Hassoc : frames ++ seg_frames ((f, (p, fr)) :: segs)
                     = (frames ++ fr) ++ seg_frames segs).
    { unfold seg_frames. cbn [map concat snd]. apply app_assoc. }
    rewrite Hassoc in Hfit |- *.
    assert (Hfit1 : length_fits (length (frames ++ fr)) = true).
    { unfold length_fits in *. apply Z.ltb_lt. apply Z.ltb_lt in Hfit.
      rewrite (length_app (frames ++ fr)) in Hfit. lia. }
    destruct (writeframes_steady p0 frames fr out w fs Hw Hfit1)
      as (w1 & Hwrite & Hw1).
    cbn [map fst copy_segments]. unfold wave_read. rewrite Hf.
    cbn [Nat.eqb]. rewrite Hwrite.
    destruct (IH (S i) w1 (frames ++ fr) (<[out := WavFile p0 (frames ++ fr)]> fs))
      as (w' & Hcopy & Hw'); auto.
    + apply lookup_insert_eq.
    + eapply Forall_impl; [exact Hrest|]. intros seg. apply readable_insert.
    + exists w'. rewrite Hcopy, insert_insert_eq. split; [reflexivity | exact Hw'].
Qed.

(** C1 as stated fails: two segments at 22050 Hz and 44100 Hz are merged
    without any error, and the output is written, in the format of the
    first, with the frames of both. *)
Lemma mismatched_rates_are_merged :
  let '(fs', r) := concatenate_wav_files ["a.wav"; "b.wav"]%string
                     "out.wav" demo_disk in
  demo_disk !! "a.wav"%string
  = Some (WavFile (pcm 22050) [Byte.x01; Byte.x02]) /\
  demo_disk !! "b.wav"%string
  = Some (WavFile (pcm 44100) [Byte.x03; Byte.x04]) /\
  r = Ok tt /\
  fs' !! "out.wav"%string
  = Some (WavFile (pcm 22050) [Byte.x01; Byte.x02; Byte.x03; Byte.x04]).
Proof. vm_compute. repeat split; reflexivity. Qed.

(** The merge of readable segments: what the amended C1 states, as a
    lemma for the proofs that go through the merge. *)
Lemma concatenate_merge (fs : filesystem) out f0 p0 fr0 (segs : list segment) :
  valid_params p0 = true ->
  header_fits p0 (length (fr0 ++ seg_frames segs)) = true ->
  Forall (readable fs out) ((f0, (p0, fr0)) :: segs) ->
  concatenate_wav_files (f0 :: map fst segs) out fs =
  (<[out := WavFile p0 (fr0 ++ seg_frames segs)]> fs, Ok tt).
Proof.
  intros Hvalid Hfit Hsegs.
  inversion Hsegs as [|? ? [Hne Hf] Hrest]; subst. simpl in Hne, Hf.
  destruct (header_fits_le p0 _ (length fr0) Hfit) as [Hfit0 _].
  { rewrite length_app. lia. }
  destruct (header_fits_le p0 _ _ Hfit (le_n _)) as [_ Hlen].
  destruct (first_segment_written p0 fr0 out (<[out := RawFile []]> fs)
              Hvalid Hfit0) as (w1 & w2 & Hset & Hwrite & Hw2).
  unfold concatenate_wav_files. cbn [copy_segments].
  unfold wave_read. rewrite lookup_insert_ne, Hf by congruence.
  cbn [Nat.eqb]. rewrite Hset, Hwrite.
  destruct (copy_segments_rest p0 out segs 0 w2 fr0
              (<[out := WavFile p0 fr0]> (<[out := RawFile []]> fs)) Hw2)
    as (w' & Hcopy & Hw'); auto.
  - apply lookup_insert_eq.
  - eapply Forall_impl; [exact Hrest|]. intros seg Hseg.
    apply readable_insert, readable_insert, Hseg.
  - rewrite Hcopy, (wave_close_steady p0 _ out w' _ Hw').
    rewrite !insert_insert_eq. reflexivity.
Qed.

(** C1, amended: the first segment gives the output its format, the
    frames of all segments follow one another in input order, the format
    of the later segments has no influence, and, the header fields taking
    the first format and the total length, the merge succeeds and writes
    the output. *)
Theorem concatenate_takes_first_format (fs : filesystem) out f0 p0 fr0
    (segs : list segment) :
  valid_params p0 = true ->
  header_fits p0 (length (fr0 ++ seg_frames segs)) = true ->
  Forall (readable fs out) ((f0, (p0, fr0)) :: segs) ->
  concatenate_wav_files (f0 :: map fst segs) out fs =
  (<[out := WavFile p0 (fr0 ++ seg_frames segs)]> fs, Ok tt).
Proof.
  intros Hvalid Hfit Hsegs.
  inversion Hsegs as [|? ? [Hne Hf] Hrest]; subst. simpl in Hne, Hf.
  destruct (header_fits_le p0 _ (length fr0) Hfit) as [Hfit0 _].
  { rewrite length_app. lia. }
  destruct (header_fits_le p0 _ _ Hfit (le_n _)) as [_ Hlen].
  destruct (first_segment_written p0 fr0 out (<[out := RawFile []]> fs)
              Hvalid Hfit0) as (w1 & w2 & Hset & Hwrite & Hw2).
  unfold concatenate_wav_files. cbn [copy_segments].
  unfold wave_read. rewrite lookup_insert_ne, Hf by congruence.
  cbn [Nat.eqb]. rewrite Hset, Hwrite.
  destruct (copy_segments_rest p0 out segs 0 w2 fr0
              (<[out := WavFile p0 fr0]> (<[out := RawFile []]> fs)) Hw2)
    as (w' & Hcopy & Hw'); auto.
  - apply lookup_insert_eq.
  - eapply Forall_impl; [exact Hrest|]. intros seg Hseg.
    apply readable_insert, readable_insert, Hseg.
  - rewrite Hcopy, (wave_close_steady p0 _ out w' _ Hw').
    rewrite !insert_insert_eq. reflexivity.
Qed.

Lemma concatenate_takes_first_format_witness :
  concatenate_wav_files
    ("a.wav" :: map fst [("b.wav", (pcm 44100, [Byte.x03; Byte.x04]))])%string
    "out.wav" demo_disk =
  (<["out.wav"%string :=
       WavFile (pcm 22050)
         ([Byte.x01; Byte.x02]
          ++ seg_frames [("b.wav"%string, (pcm 44100, [Byte.x03; Byte.x04]))])]>
     demo_disk, Ok tt).
Proof.
  apply (concatenate_takes_first_format demo_disk "out.wav" "a.wav"
           (pcm 22050) [Byte.x01; Byte.x02]).
  - reflexivity.
  - reflexivity.
  - repeat constructor; simpl; discriminate.
Defined.

(** Whatever it is given, [writeframes] changes the disk at the output
    path only, where it leaves the file of the writer; so does [close]. *)
Lemma writeframes_disk out data w (fs : filesystem) :
  (writeframes out data w fs).1.1
  = <[out := on_disk (writeframes out data w fs).1.2]> fs.
Proof.
  unfold writeframes.
  destruct (ensure_header_written (length data) w) as [w1 [[]|e]];
    [|reflexivity].
  destruct (patchheader _) as [w3 r]. reflexivity.
Qed.

Lemma wave_close_disk out w (fs : filesystem) :
  exists d, (wave_close out w fs).1 = <[out := d]> fs.
Proof.
  unfold wave_close.
  destruct (ensure_header_written 0 w) as [w1 [[]|e]]; [|eexists; reflexivity].
  destruct (patchheader w1) as [w2 r]. eexists. reflexivity.
Qed.

(** Whatever happens, merging changes the disk at the destination only. *)
Lemma copy_segments_frame files i out w (fs : filesystem) p :
  p <> out -> (copy_segments files i out w fs).1.1 !! p = fs !! p.
Proof.
  intros Hp. revert i w fs. induction files as [|f files IH]; intros i w fs.
  - reflexivity.
  - cbn [copy_segments]. destruct (wave_read f fs) as [[q fr]|e]; [|reflexivity].
    destruct (if Nat.eqb i 0 then setparams q (length fr) w else Ok w)
      as [w1|e]; [|reflexivity].
    pose proof (writeframes_disk out fr w1 fs) as Hd.
    destruct (writeframes out fr w1 fs) as [[fs1 w2] [[]|e]];
      cbn [fst snd] in Hd |- *; subst fs1.
    + rewrite IH, lookup_insert_ne; [reflexivity | congruence].
    + rewrite lookup_insert_ne; [reflexivity | congruence].
Qed.

Lemma concatenate_frame files out (fs : filesystem) p :
  p <> out -> (concatenate_wav_files files out fs).1 !! p = fs !! p.
Proof.
  intros Hp. unfold concatenate_wav_files.
  pose proof (copy_segments_frame files 0 out new_writer
                (<[out := RawFile []]> fs) p Hp) as H.
  destruct (copy_segments files 0 out new_writer (<[out := RawFile []]> fs))
    as [[fs1 w] r]. simpl in H.
  rewrite lookup_insert_ne in H by congruence.
  destruct (wave_close_disk out w fs1) as [d Hd].
  destruct (wave_close out w fs1) as [fs2 [[]|e]]; cbn [fst] in Hd |- *;
    subst fs2; rewrite lookup_insert_ne by congruence; exact H.
Qed.

(** ** [convert_text_to_speech] *)

Lemma cleanup_cons unlink_raises t temp_files (fs : filesystem) :
  cleanup unlink_raises (t :: temp_files) fs
  = cleanup unlink_raises temp_files
      match fs !! t with
      | Some _ => if unlink_raises t fs then fs else delete t fs
      | None => fs
      end.
Proof. reflexivity. Qed.

(** The [finally] block leaves alone what is not a recorded temporary
    file. *)
Lemma cleanup_other unlink_raises temp_files (fs : filesystem) p :
  p ∉ temp_files -> cleanup unlink_raises temp_files fs !! p = fs !! p.
Proof.
  revert fs. induction temp_files as [|t temp_files IH]; intros fs Hp.
  - reflexivity.
  - rewrite cleanup_cons.
    rewrite IH by (intros Hin; apply Hp; right; exact Hin).
    assert (p <> t) by (intros ->; apply Hp; left).
    destruct (fs !! t); [|reflexivity].
    destruct (unlink_raises t fs); [reflexivity|].
    apply lookup_delete_ne. congruence.
Qed.

(** It adds nothing to the disk. *)
Lemma cleanup_shrinks unlink_raises temp_files (fs : filesystem) p :
  fs !! p = None -> cleanup unlink_raises temp_files fs !! p = None.
Proof.
  revert fs. induction temp_files as [|t temp_files IH]; intros fs Hp.
  - exact Hp.
  - rewrite cleanup_cons.
    apply IH. destruct (fs !! t); [|exact Hp].
    destruct (unlink_raises t fs); [exact Hp|].
    destruct (decide (t = p)) as [->|Hne];
      [apply lookup_delete_eq | rewrite lookup_delete_ne; [exact Hp | exact Hne]].
Qed.

(** Where [os.unlink] does not raise, every recorded temporary file is
    gone afterwards. *)
Lemma cleanup_lookup unlink_raises temp_files (fs : filesystem) p :
  (forall t fs0, unlink_raises t fs0 = false) ->
  cleanup unlink_raises temp_files fs !! p
  = if decide (p ∈ temp_files) then None else fs !! p.
Proof.
  intros Hu. destruct (decide (p ∈ temp_files)) as [Hin|Hnin];
    [|apply cleanup_other, Hnin].
  revert fs. induction Hin as [p temp_files|p t temp_files Hin IH]; intros fs;
    rewrite cleanup_cons.
  - apply cleanup_shrinks. destruct (fs !! p) eqn:E; [|exact E].
    rewrite Hu. apply lookup_delete_eq.
  - apply IH.
Qed.

Section PipelineFacts.
Variable mktemp : filesystem -> string.
Variable tts_to_file : str -> option file_data.
Variable unlink_raises : string -> filesystem -> bool.

Lemma synthesize_chunks_temps (P : string -> Prop) chunks temp_files fs :
  (forall fs0, P (mktemp fs0)) -> Forall P temp_files ->
  Forall P (synthesize_chunks mktemp tts_to_file chunks temp_files fs).1.2.
Proof.
  intros Hmk. revert temp_files fs.
  induction chunks as [|chunk chunks IH]; intros temp_files fs Ht.
  - exact Ht.
  - cbn [synthesize_chunks].
    assert (Forall P (temp_files ++ [mktemp fs])).
    { apply Forall_app. split; [exact Ht | repeat constructor; apply Hmk]. }
    destruct (tts_to_file chunk); [apply IH; assumption | assumption].
Qed.

Lemma synthesize_chunks_keeps chunks temp_files fs t :
  t ∈ temp_files ->
  t ∈ (synthesize_chunks mktemp tts_to_file chunks temp_files fs).1.2.
Proof.
  revert temp_files fs.
  induction chunks as [|chunk chunks IH]; intros temp_files fs Ht.
  - exact Ht.
  - cbn [synthesize_chunks].
    assert (t ∈ temp_files ++ [mktemp fs]) by (apply elem_of_app; left; exact Ht).
    destruct (tts_to_file chunk); [apply IH; assumption | assumption].
Qed.

(** Synthesis writes to the temporary files it records and nowhere else. *)
Lemma synthesize_chunks_frame chunks temp_files fs p :
  p ∉ (synthesize_chunks mktemp tts_to_file chunks temp_files fs).1.2 ->
  (synthesize_chunks mktemp tts_to_file chunks temp_files fs).1.1 !! p
  = fs !! p.
Proof.
  revert temp_files fs.
  induction chunks as [|chunk chunks IH]; intros temp_files fs Hp.
  - reflexivity.
  - cbn [synthesize_chunks] in Hp |- *.
    assert (Hne : mktemp fs <> p).
    { intros <-. apply Hp.
      destruct (tts_to_file chunk);
        [apply synthesize_chunks_keeps|]; apply elem_of_app; right; constructor. }
    destruct (tts_to_file chunk).
    + rewrite (IH _ _ Hp), !lookup_insert_ne by exact Hne. reflexivity.
    + simpl. rewrite lookup_insert_ne by exact Hne. reflexivity.
Qed.

Lemma synthesize_chunks_fails chunks temp_files fs :
  Exists (fun c => tts_to_file c = None) chunks ->
  (synthesize_chunks mktemp tts_to_file chunks temp_files fs).2
  = Raise SynthesisError.
Proof.
  intros H. revert temp_files fs.
  induction H as [c chunks Hc | c chunks _ IH]; intros temp_files fs;
    cbn [synthesize_chunks].
  - rewrite Hc. reflexivity.
  - destruct (tts_to_file c); [apply IH | reflexivity].
Qed.

(** The [try] block changes the disk at the destination and at the
    temporary files only. *)
Lemma convert_body_frame chunks out fs p :
  p <> out ->
  p ∉ (convert_body mktemp tts_to_file chunks out fs).1.2 ->
  (convert_body mktemp tts_to_file chunks out fs).1.1 !! p = fs !! p.
Proof.
  intros Hout. unfold convert_body.
  pose proof (synthesize_chunks_frame chunks [] fs p) as Hs.
  destruct (synthesize_chunks mktemp tts_to_file chunks [] fs)
    as [[fs1 temp_files] [[]|e]]; simpl in Hs; [|exact Hs].
  destruct (Nat.eqb (length temp_files) 1) eqn:El.
  - destruct temp_files as [|t [|? ?]]; try discriminate El. simpl.
    unfold shutil_move. destruct (fs1 !! t) eqn:Et; simpl; [|exact Hs].
    intros Hp. rewrite lookup_insert_ne by congruence.
    rewrite lookup_delete_ne; [exact (Hs Hp)|].
    intros ->. apply Hp. left.
  - pose proof (concatenate_frame temp_files out fs1 p Hout) as Hc.
    destruct (concatenate_wav_files temp_files out fs1) as [fs2 r].
    simpl in Hc |- *. intros Hp. rewrite Hc. exact (Hs Hp).
Qed.

(** C9, amended: as long as [os.unlink] does not raise, when
    [convert_text_to_speech] is over, however it ended, none of the
    temporary files it created is on the disk, and the only path that may
    have appeared is the destination. *)
Theorem temp_files_released chunks out fs :
  (forall t fs0, unlink_raises t fs0 = false) ->
  let '(fs', temp_files, _) :=
    convert_text_to_speech mktemp tts_to_file unlink_raises chunks out fs in
  Forall (fun t => fs' !! t = None) temp_files /\
  dom fs' ⊆ dom fs ∪ {[out]}.
Proof.
  intros Hu. unfold convert_text_to_speech.
  pose proof (convert_body_frame chunks out fs) as Hb.
  destruct (convert_body mktemp tts_to_file chunks out fs)
    as [[fs1 temp_files] r]. simpl in Hb. split.
  - apply Forall_forall. intros t Ht. rewrite (cleanup_lookup _ _ _ _ Hu).
    case_decide; [reflexivity | contradiction].
  - intros p Hp. apply elem_of_dom in Hp.
    rewrite (cleanup_lookup _ _ _ _ Hu) in Hp.
    case_decide as Ht; [destruct Hp as [? Hp]; discriminate Hp|].
    destruct (decide (p = out)) as [->|Hne].
    + apply elem_of_union. right. apply elem_of_singleton. reflexivity.
    + apply elem_of_union. left. apply elem_of_dom.
      rewrite <- (Hb p Hne Ht). exact Hp.
Qed.

(** C8: with a single chunk, the destination ends up holding exactly the
    file the engine wrote, and the call succeeds. *)
Theorem single_segment_verbatim chunk out fs data :
  tts_to_file chunk = Some data -> mktemp fs <> out ->
  exists fs',
    convert_text_to_speech mktemp tts_to_file unlink_raises [chunk] out fs
    = (fs', [mktemp fs], Ok tt) /\
    fs' !! out = Some data.
Proof.
  intros Htts Hne.
  unfold convert_text_to_speech, convert_body. cbn [synthesize_chunks].
  rewrite Htts. cbn [app length Nat.eqb hd]. unfold shutil_move.
  rewrite lookup_insert_eq, cleanup_cons.
  rewrite lookup_insert_ne, lookup_delete_eq by congruence.
  eexists. split; [reflexivity | apply lookup_insert_eq].
Qed.

(** C5, amended: when the engine fails on some chunk, the call raises and
    the destination is as it was before the call. *)
Theorem synthesis_failure_spares_destination chunks out fs :
  (forall fs0, mktemp fs0 <> out) ->
  Exists (fun c => tts_to_file c = None) chunks ->
  let '(fs', _, r) :=
    convert_text_to_speech mktemp tts_to_file unlink_raises chunks out fs in
  r = Raise SynthesisError /\ fs' !! out = fs !! out.
Proof.
  intros Hmk Hfail. unfold convert_text_to_speech, convert_body.
  pose proof (synthesize_chunks_fails chunks [] fs Hfail) as Hr.
  pose proof (synthesize_chunks_frame chunks [] fs out) as Hf.
  pose proof (synthesize_chunks_temps (fun t => t <> out) chunks [] fs Hmk
                (Forall_nil_2 _)) as Ht.
  destruct (synthesize_chunks mktemp tts_to_file chunks [] fs)
    as [[fs1 temp_files] r]. simpl in Hr, Hf, Ht. subst r.
  assert (Hnot : out ∉ temp_files).
  { intros Hin. rewrite Forall_forall in Ht. exact (Ht out Hin eq_refl). }
  split; [reflexivity|].
  rewrite cleanup_other by exact Hnot. exact (Hf Hnot).
Qed.
End PipelineFacts.

(** C9 as stated fails: [os.unlink] raising, which [except: pass] drops,
    the call succeeds and the two temporary files it created are still on
    the disk. *)
Lemma temp_file_left_when_unlink_raises :
  let '(fs', temp_files, r) :=
    convert_text_to_speech demo_mktemp demo_tts unlink_denied
      [py "Szia"; py "Hogy vagy"] "out.wav" ∅ in
  r = Ok tt /\
  temp_files = ["/tmp/tmp0.wav"; "/tmp/tmp00.wav"]%string /\
  Forall (fun t => fs' !! t = Some (WavFile (pcm 22050) [Byte.x01; Byte.x02]))
    temp_files /\
  ~ Forall (fun t => fs' !! t = None) temp_files.
Proof.
  vm_compute. split; [reflexivity|]. split; [reflexivity|]. split.
  - repeat constructor.
  - intros H. inversion H as [|? ? H1 _]. discriminate H1.
Qed.

Lemma temp_files_released_witness :
  let '(fs', temp_files, _) :=
    convert_text_to_speech demo_mktemp demo_tts unlink_works
      [py "Szia"; py "Hogy vagy"] "out.wav" ∅ in
  Forall (fun t => fs' !! t = None) temp_files /\
  dom fs' ⊆ dom (∅ : filesystem) ∪ {["out.wav"%string]}.
Proof.
  apply (temp_files_released demo_mktemp demo_tts unlink_works
           [py "Szia"; py "Hogy vagy"] "out.wav" ∅).
  reflexivity.
Defined.

Lemma single_segment_verbatim_witness :
  exists fs',
    convert_text_to_speech demo_mktemp demo_tts unlink_works [py "Szia"]
      "out.wav" ∅
    = (fs', [demo_mktemp ∅], Ok tt) /\
    fs' !! "out.wav"%string = Some (WavFile (pcm 22050) [Byte.x01; Byte.x02]).
Proof.
  apply (single_segment_verbatim demo_mktemp demo_tts unlink_works
           (py "Szia") "out.wav" ∅).
  - reflexivity.
  - vm_compute. discriminate.
Defined.

Lemma synthesis_failure_spares_destination_witness :
  let '(fs', _, r) :=
    convert_text_to_speech demo_mktemp demo_tts unlink_works
      [py "Szia"; []] "a.wav" demo_disk in
  r = Raise SynthesisError /\ fs' !! "a.wav"%string = demo_disk !! "a.wav"%string.
Proof.
  apply (synthesis_failure_spares_destination demo_mktemp demo_tts
           unlink_works [py "Szia"; []] "a.wav" demo_disk).
  - intros fs0 H. unfold demo_mktemp in H. cbn [append] in H. discriminate H.
  - apply Exists_cons_tl, Exists_cons_hd. reflexivity.
Defined.

(** C5 as stated fails: the engine leaves an unreadable second segment,
    the merge raises after the first segment has been written, and the
    recording that was at the destination has been replaced. *)
Lemma merge_failure_writes_destination :
  let '(fs', _, r) :=
    convert_text_to_speech demo_mktemp demo_tts unlink_works
      [py "Szia"; py "?"] "b.wav" demo_disk in
  r = Raise EOFError /\
  fs' !! "b.wav"%string = Some (WavFile (pcm 22050) [Byte.x01; Byte.x02]) /\
  fs' !! "b.wav"%string <> demo_disk !! "b.wav"%string.
Proof. vm_compute. split; [reflexivity | split; [reflexivity | discriminate]]. Qed.

(** With no chunk at all the merge path is taken too: the destination is
    created empty, and closing the writer raises for want of a format. *)
Example no_chunk_leaves_empty_destination :
  convert_text_to_speech demo_mktemp demo_tts unlink_works [] "out.wav" ∅
  = (<["out.wav"%string := RawFile []]> ∅, [], Raise WaveError).
Proof. vm_compute. reflexivity. Qed.

(** A first segment whose format does not go into the header fields (its
    block size, 80000, needs more than 16 bits): the writer raises
    [struct.error] when it packs the header, once in [writeframes] and
    once more when the [with] block closes it, and the destination is
    left with the [RIFF] tag written twice. *)
Example wide_first_segment_breaks_header :
  let wide := {| nchannels := 40000; sampwidth := 2; framerate := 8000 |} in
  let disk : filesystem :=
    <["w.wav"%string := WavFile wide [Byte.x01; Byte.x02]]> ∅ in
  valid_params wide = true /\
  concatenate_wav_files ["w.wav"]%string "out.wav" disk
  = (<["out.wav"%string := RawFile (riff_tag ++ riff_tag)]> disk,
     Raise StructError).
Proof. vm_compute. split; reflexivity. Qed.

(** ** Worked examples *)

(** The scenario of the specification: two sentences fit the limit of 15
    together, and the third one, 16 characters long with its full stop,
    leaves whole. *)
Example chunks_of_greeting :
  split_text_into_chunks (py "Szia! Hogy vagy? Ma szep ido van.") 15
  = Some [py "Szia. Hogy vagy"; py "Ma szep ido van."].
Proof. vm_compute. reflexivity. Qed.

(** A first sentence longer than the limit is sliced. *)
Example chunks_of_long_first_sentence :
  split_text_into_chunks (py "abcdefghijkl. xy") 5
  = Some [py "abcde"; py "fghij"; py "kl"; py "xy"].
Proof. vm_compute. reflexivity. Qed.

(** A limit of zero sends the slicing loop round for ever. *)
Example chunks_with_zero_limit :
  split_text_into_chunks (py "abc") 0 = None.
Proof. vm_compute. reflexivity. Qed.

Example split_keeps_empty_pieces :
  re_split re_sentence_end (py "Szia! Hogy vagy?  Ma. ")
  = [py "Szia"; py "Hogy vagy"; py "Ma"; []].
Proof. vm_compute. reflexivity. Qed.

Example clean_text_symbols :
  clean_text (py "3+4 = 7")
  = py "3 plusz 4  egyenl" ++ [337%N] ++ py "  7".
Proof. vm_compute. reflexivity. Qed.

(** * Further properties *)

(** ** [read_text_file] *)

Lemma try_encodings_result open_read encs :
  match try_encodings open_read encs with
  | Ok t => t <> [] /\ stripped t
  | Raise e => e = ValueError
  end.
Proof.
  induction encs as [|e encs IH]; cbn [try_encodings]; [reflexivity|].
  destruct (open_read e) as [raw|err]; [|destruct err; exact IH].
  pose proof (strip_stripped raw) as Hs.
  destruct (strip raw) as [|c t]; cbn [truthy]; [exact IH|].
  split; [discriminate | exact Hs].
Qed.

(** X1: whatever the codecs and the file system do, [read_text_file]
    either returns a text that is not empty and has no whitespace at
    either end, or raises [ValueError]; a decoding or I/O error never
    gets out. *)
Theorem read_text_file_result open_read :
  match read_text_file open_read with
  | Ok t => t <> [] /\ stripped t
  | Raise e => e = ValueError
  end.
Proof. apply try_encodings_result. Qed.

(** ** [clean_text] *)

(** X2: the result of [clean_text] contains none of the eight symbols of
    the table, its only whitespace is the plain space (no newline, no
    tab), and it neither starts nor ends with whitespace. *)
Theorem clean_text_hygiene x :
  symbol_free (clean_text x) /\ plain_spaces (clean_text x) /\
  stripped (clean_text x).
Proof.
  split; [apply clean_text_symbol_free|].
  split; [apply clean_text_plain_spaces | apply clean_text_stripped].
Qed.

(** X3: the statement [text = re.sub(r'\n+', '. ', text)] has no effect
    on any input: [clean_text] is the whitespace collapse, the symbol
    substitutions and the final strip. *)
Theorem clean_text_newline_rule_dead x :
  clean_text x
  = strip (replace_all replacements (re_sub re_spaces (py " ") x)).
Proof. unfold clean_text. rewrite newline_pass_dead. reflexivity. Qed.

Lemma symbol_not_space c : isspace c = true -> is_symbol c = false.
Proof.
  intros Hc. destruct (is_symbol c) eqn:E; [|reflexivity].
  apply is_symbol_spec in E. simpl in E.
  repeat (destruct E as [<-|E]; [discriminate Hc|]). contradiction.
Qed.

Lemma clean_text_blank x :
  Forall (fun c => isspace c = true) x -> clean_text x = [].
Proof.
  intros H. rewrite clean_text_eq.
  assert (Hsq : Forall (fun c => isspace c = true) (squeeze false x)).
  { apply squeeze_Forall; [reflexivity | exact H]. }
  rewrite replace_all_symbol_free_id.
  - apply strip_all_space, Hsq.
  - eapply Forall_impl; [exact Hsq|]. apply symbol_not_space.
Qed.

Lemma squeeze_keeps prev s c :
  c ∈ s -> isspace c = false -> c ∈ squeeze prev s.
Proof.
  intros Hin Hc. revert prev.
  induction Hin as [c s|c d s Hin IH]; intros prev; simpl.
  - rewrite Hc. left.
  - destruct (isspace d); [destruct prev|].
    + apply (IH Hc).
    + right. apply (IH Hc).
    + right. apply (IH Hc).
Qed.

Lemma str_replace_inked old new s :
  inked new -> inked s -> inked (str_replace old new s).
Proof.
  intros (n & Hn & Hns) (c & Hin & Hc). unfold str_replace.
  induction Hin as [c s|c d s Hin IH].
  - simpl. destruct (c =? old)%N.
    + exists n. split; [apply elem_of_app; left; exact Hn | exact Hns].
    + exists c. split; [left | exact Hc].
  - destruct (IH Hc) as (e & He & Hes).
    exists e. split; [|exact Hes]. simpl. apply elem_of_app. right. exact He.
Qed.

Lemma replace_all_inked table s :
  (forall old new, In (old, new) table -> inked new) ->
  inked s -> inked (replace_all table s).
Proof.
  revert s. induction table as [|[old new] table IH]; intros s Hnew Hs.
  - exact Hs.
  - unfold replace_all. cbn [fold_left]. apply IH.
    + intros o n Hin. apply (Hnew o n). right. exact Hin.
    + apply str_replace_inked; [|exact Hs].
      apply (Hnew old new). left. reflexivity.
Qed.

Lemma replacements_inked old new : In (old, new) replacements -> inked new.
Proof.
  intros Hin.
  assert (Hall : forallb (fun '(_, new) => existsb (fun c => negb (isspace c)) new)
                   replacements = true) by (vm_compute; reflexivity).
  rewrite forallb_forall in Hall. specialize (Hall _ Hin). simpl in Hall.
  apply existsb_exists in Hall as (c & Hc & Hs).
  exists c. split; [apply list_elem_of_In, Hc | apply negb_true_iff, Hs].
Qed.

Lemma clean_text_inked x : inked x -> clean_text x <> [].
Proof.
  intros (c & Hin & Hc). rewrite clean_text_eq.
  apply strip_inked, replace_all_inked; [apply replacements_inked|].
  exists c. split; [apply squeeze_keeps; assumption | exact Hc].
Qed.

Lemma blank_or_inked x : Forall (fun c => isspace c = true) x \/ inked x.
Proof.
  induction x as [|c x [IH|(d & Hd & Hs)]].
  - left. constructor.
  - destruct (isspace c) eqn:E.
    + left. constructor; assumption.
    + right. exists c. split; [left | exact E].
  - right. exists d. split; [right; exact Hd | exact Hs].
Qed.

(** X4: [clean_text] returns the empty string exactly on the texts that
    are empty or made of whitespace only. *)
Theorem clean_text_empty_iff x :
  clean_text x = [] <-> Forall (fun c => isspace c = true) x.
Proof.
  split; [|apply clean_text_blank].
  intros H. destruct (blank_or_inked x) as [Hb|Hi]; [exact Hb|].
  contradiction (clean_text_inked x Hi H).
Qed.

(** ** From the file to the chunks *)

(** X5: the text stages of [main] compose: whenever [read_text_file]
    returns and the chunk size is positive, [split_text_into_chunks] of
    the cleaned text returns at least one chunk, so that
    [convert_text_to_speech] is never handed an empty list. *)
Theorem text_stages_give_chunks open_read t N :
  read_text_file open_read = Ok t -> (0 < N)%Z ->
  exists chunks,
    split_text_into_chunks (clean_text t) N = Some chunks /\ chunks <> [].
Proof.
  intros Hread HN.
  pose proof (try_encodings_result open_read encodings) as Hres.
  unfold read_text_file in Hread. rewrite Hread in Hres.
  destruct Hres as [Hne [_ Hback]].
  assert (Hclean : clean_text t <> [])
    by (apply clean_text_inked, ended_inked; assumption).
  destruct (split_text_into_chunks_spec (clean_text t) N HN)
    as (chunks & Hsplit & _ & _ & Hsome).
  exists chunks. split; [exact Hsplit|].
  apply Hsome; [exact Hclean | apply clean_text_stripped].
Qed.

Lemma text_stages_give_chunks_witness :
  exists chunks,
    split_text_into_chunks (clean_text (py "Szia!")) 1000 = Some chunks /\
    chunks <> [].
Proof.
  apply (text_stages_give_chunks
           (fun e => match e with
                     | utf_8 => Ok (py " Szia! ")
                     | _ => Raise UnicodeDecodeError
                     end) (py "Szia!") 1000).
  - reflexivity.
  - lia.
Defined.

Lemma clean_text_idempotent_symbol_free_witness :
  clean_text (clean_text (py "  Szia!   Hogy vagy? "))
  = clean_text (py "  Szia!   Hogy vagy? ").
Proof.
  apply (clean_text_idempotent_symbol_free (py "  Szia!   Hogy vagy? ")).
  repeat constructor.
Defined.

(** ** [split_text_into_chunks] *)

Lemma chunk_lengths_witness :
  Forall (within_limit 15
            (re_split re_sentence_end (py "Szia! Hogy vagy? Ma szep ido van.")))
         [py "Szia. Hogy vagy"; py "Ma szep ido van."].
Proof.
  apply (chunk_lengths (py "Szia! Hogy vagy? Ma szep ido van.") 15).
  - lia.
  - vm_compute. reflexivity.
Defined.

(** X9: when every sentence of the text fits the positive limit by
    itself, every chunk does. *)
Theorem chunks_fit_when_sentences_fit text N chunks :
  (0 < N)%Z ->
  Forall (fun s => (len (strip s) <= N)%Z) (re_split re_sentence_end text) ->
  split_text_into_chunks text N = Some chunks ->
  Forall (fun c => (len c <= N)%Z) chunks.
Proof.
  intros HN Hfit. unfold split_text_into_chunks.
  destruct (chunk_loop N (re_split re_sentence_end text) ([], []))
    as [[chunks0 cur]|] eqn:Hloop; [|discriminate].
  destruct (chunk_loop_len N _ _ [] [] chunks0 cur HN (reflexivity _)
              (Forall_nil_2 _) (or_introl (Z.lt_le_incl _ _ HN)) Hloop)
    as [Hch Hcur].
  assert (Hlim : forall c,
            within_limit N (re_split re_sentence_end text) c -> (len c <= N)%Z).
  { intros c [H|(s & Hs & -> & Hlen)]; [exact H|].
    rewrite Forall_forall in Hfit. specialize (Hfit s Hs). lia. }
  intros [= <-]. destruct cur as [|d cur]; cbn [truthy].
  - eapply Forall_impl; [exact Hch | exact Hlim].
  - apply Forall_app. split; [eapply Forall_impl; [exact Hch | exact Hlim]|].
    constructor; [|constructor]. apply Hlim, within_limit_strip, Hcur.
Qed.

Lemma chunks_fit_when_sentences_fit_witness :
  Forall (fun c => (len c <= 10)%Z) [py "Szia"; py "Hogy vagy?"].
Proof.
  apply (chunks_fit_when_sentences_fit (py "Szia! Hogy vagy?") 10).
  - lia.
  - vm_compute. repeat constructor; discriminate.
  - vm_compute. reflexivity.
Defined.

Lemma chunk_loop_diverges N todo chunks :
  (N <= 0)%Z -> Exists inked todo -> chunk_loop N todo (chunks, []) = None.
Proof.
  intros HN H. induction H as [s todo Hs | s todo _ IH]; cbn [chunk_loop chunk_step].
  - pose proof (strip_inked s Hs) as Hne.
    destruct (strip s) as [|c t] eqn:Es; [contradiction|]. cbn [truthy negb].
    destruct (Z.gtb_spec (len [] + len (c :: t) + 2) N) as [_|Hle];
      [|unfold len in Hle; simpl in Hle; lia].
    rewrite hard_split_diverges; [reflexivity | exact HN | discriminate].
  - destruct (strip s) as [|c t] eqn:Es; cbn [truthy negb]; [exact IH|].
    destruct (Z.gtb_spec (len [] + len (c :: t) + 2) N) as [_|Hle];
      [|unfold len in Hle; simpl in Hle; lia].
    rewrite hard_split_diverges; [reflexivity | exact HN | discriminate].
Qed.

(** X10: with a chunk size of zero or less, the call does not return on
    any text that is not empty and does not end in whitespace: the
    slicing loop of the first sentence never ends. *)
Theorem nonpositive_limit_never_returns text N :
  (N <= 0)%Z -> text <> [] -> front_ok (reverse text) ->
  split_text_into_chunks text N = None.
Proof.
  intros HN Hne Hb. unfold split_text_into_chunks.
  rewrite (chunk_loop_diverges N _ [] HN (re_split_inked text Hne Hb)).
  reflexivity.
Qed.

Lemma nonpositive_limit_never_returns_witness :
  split_text_into_chunks (py "Szia!") 0 = None.
Proof.
  apply (nonpositive_limit_never_returns (py "Szia!") 0).
  - lia.
  - discriminate.
  - reflexivity.
Defined.

Lemma str_join_cons sep p rest :
  str_join sep (p :: rest) = p ++ concat (map (fun s => sep ++ s) rest).
Proof.
  revert p. induction rest as [|r rest IH]; intros p.
  - simpl. rewrite app_nil_r. reflexivity.
  - change (str_join sep (p :: r :: rest))
      with (p ++ sep ++ str_join sep (r :: rest)).
    rewrite IH. cbn [map concat]. rewrite <- app_assoc. reflexivity.
Qed.

Lemma joiner_length : length (py ". ") = 2.
Proof. reflexivity. Qed.

(** While the buffer and what is still to come fit the limit together,
    the loop only appends to the buffer. *)
Lemma chunk_loop_accumulates N todo chunks cur :
  cur <> [] ->
  (len (cur ++ concat (map (fun s => py ". " ++ s)
                         (filter (fun s => truthy s = true) (map strip todo))))
   <= N)%Z ->
  chunk_loop N todo (chunks, cur) =
  Some (chunks,
        cur ++ concat (map (fun s => py ". " ++ s)
                         (filter (fun s => truthy s = true) (map strip todo)))).
Proof.
  revert cur. induction todo as [|s todo IH]; intros cur Hne.
  - intros _. simpl. rewrite app_nil_r. reflexivity.
  - cbn [map chunk_loop chunk_step].
    destruct (strip s) as [|c t] eqn:Es; cbn [truthy negb].
    + rewrite filter_cons_False by (simpl; discriminate). apply IH, Hne.
    + rewrite filter_cons_True by reflexivity. cbn [map concat].
      intros Hlen.
      destruct (Z.gtb_spec (len cur + len (c :: t) + 2) N) as [Hgt|Hle].
      * exfalso. unfold len in *.
        rewrite !length_app, joiner_length in Hlen. lia.
      * destruct cur as [|d cur]; [contradiction|]. cbn [truthy].
        rewrite <- !app_assoc in Hlen |- *.
        rewrite IH.
        -- rewrite <- !app_assoc. reflexivity.
        -- discriminate.
        -- rewrite <- !app_assoc. exact Hlen.
Qed.

Lemma chunk_loop_starts N todo chunks :
  filter (fun s => truthy s = true) (map strip todo) <> [] ->
  (len (str_join (py ". ")
          (filter (fun s => truthy s = true) (map strip todo))) <= N)%Z ->
  chunk_loop N todo (chunks, []) =
  Some (chunks,
        str_join (py ". ")
          (filter (fun s => truthy s = true) (map strip todo))).
Proof.
  induction todo as [|s todo IH]; [intros H; contradiction|].
  cbn [map chunk_loop chunk_step].
  destruct (strip s) as [|c t] eqn:Es; cbn [truthy negb].
  - rewrite filter_cons_False by (simpl; discriminate). exact IH.
  - rewrite filter_cons_True by reflexivity. intros _.
    rewrite str_join_cons. intros Hlen.
    assert (Hfit : (len (c :: t) <= N)%Z).
    { unfold len in *. rewrite length_app in Hlen. lia. }
    assert (Hstep :
      (if (len [] + len (c :: t) + 2 >? N)%Z
       then hard_split (length (c :: t)) N chunks (c :: t)
       else Some (chunks, c :: t)) = Some (chunks, c :: t)).
    { destruct (len [] + len (c :: t) + 2 >? N)%Z; [|reflexivity].
      rewrite hard_split_unfold.
      destruct (Z.gtb_spec (len (c :: t)) N); [lia | reflexivity]. }
    rewrite Hstep. apply chunk_loop_accumulates; [discriminate | exact Hlen].
Qed.

Lemma front_ok_app a b : a <> [] -> front_ok a -> front_ok (a ++ b).
Proof. destruct a; [contradiction | intros _ H; exact H]. Qed.

(** X11: a text that has at least one sentence that is not blank, and
    whose sentences, joined with [". "], fit the limit, comes out as one
    chunk, which is that joined text. *)
Theorem fitting_text_single_chunk text N :
  spoken_sentences text <> [] ->
  (len (str_join (py ". ") (spoken_sentences text)) <= N)%Z ->
  split_text_into_chunks text N
  = Some [str_join (py ". ") (spoken_sentences text)].
Proof.
  unfold spoken_sentences, split_text_into_chunks. intros Hne Hlen.
  pose proof (chunk_loop_starts N _ [] Hne Hlen) as Hloop.
  assert (HN : (0 < N)%Z).
  { destruct (filter _ _) as [|p rest] eqn:Ef; [contradiction|].
    assert (Hp : p ∈ filter (fun s => truthy s = true)
                   (map strip (re_split re_sentence_end text)))
      by (rewrite Ef; left).
    apply list_elem_of_filter in Hp as [Hp _].
    rewrite str_join_cons in Hlen. unfold len in Hlen.
    rewrite length_app in Hlen. destruct p; [discriminate Hp|].
    simpl in Hlen. lia. }
  destruct (chunk_loop_inv N (re_split re_sentence_end text) [] [] HN)
    as (chunks & cur & Hloop' & _ & Hback & _); [constructor | exact I|].
  rewrite Hloop in Hloop' |- *. injection Hloop' as <- <-.
  destruct (filter _ _) as [|p rest] eqn:Ef; [contradiction|].
  assert (Hp : p ∈ filter (fun s => truthy s = true)
                 (map strip (re_split re_sentence_end text)))
    by (rewrite Ef; left).
  apply list_elem_of_filter in Hp as [Hp Hin].
  apply list_elem_of_In, in_map_iff in Hin as (s0 & <- & _).
  rewrite str_join_cons in Hback |- *.
  assert (Hj : strip s0 ++ concat (map (fun s => py ". " ++ s) rest) <> []).
  { destruct (strip s0); [discriminate Hp | discriminate]. }
  assert (Hst : stripped (strip s0 ++ concat (map (fun s => py ". " ++ s) rest))).
  { split; [|exact Hback]. apply front_ok_app; [|apply strip_stripped].
    destruct (strip s0); [discriminate Hp | discriminate]. }
  rewrite (strip_id _ Hst).
  destruct (strip s0 ++ concat (map (fun s => py ". " ++ s) rest));
    [contradiction | reflexivity].
Qed.

Lemma fitting_text_single_chunk_witness :
  split_text_into_chunks (py "Szia!  Hogy vagy?  Jol.") 30
  = Some [str_join (py ". ") (spoken_sentences (py "Szia!  Hogy vagy?  Jol."))].
Proof.
  apply (fitting_text_single_chunk (py "Szia!  Hogy vagy?  Jol.") 30).
  - vm_compute. discriminate.
  - vm_compute. discriminate.
Defined.

(** X12: a text without sentence punctuation is cut, word boundaries
    ignored, into consecutive slices of exactly [N] characters of the
    stripped text, followed by what is left of it, stripped again. *)
Theorem unpunctuated_text_slices text N :
  (0 < N)%Z ->
  Forall (fun c => is_terminator c = false) text ->
  strip text <> [] ->
  exists slices rest,
    split_text_into_chunks text N = Some (slices ++ [strip rest]) /\
    concat slices ++ rest = strip text /\
    Forall (fun sl => len sl = N) slices /\
    (0 < len rest <= N)%Z.
Proof.
  intros HN Hterm Hne. unfold split_text_into_chunks, re_split.
  rewrite (split_no_terminator text [] Hterm).
  cbn [app chunk_loop chunk_step].
  destruct (strip text) as [|c t] eqn:Es; [contradiction|]. cbn [truthy negb].
  destruct (Z.gtb_spec (len [] + len (c :: t) + 2) N) as [Hgt|Hle]; cbn [truthy].
  - destruct (hard_split_total (length (c :: t)) N [] (c :: t) HN (le_n _))
      as (slices & rest & -> & Hcat & Hsl & Hrest & Hnon).
    exists slices, rest. specialize (Hnon ltac:(discriminate)).
    destruct rest as [|r rest]; [contradiction|]. cbn [truthy app].
    repeat split; auto; unfold len; simpl; lia.
  - exists [], (c :: t). cbn [app concat].
    repeat split; auto; unfold len in *; simpl in *; lia.
Qed.

Lemma unpunctuated_text_slices_witness :
  exists slices rest,
    split_text_into_chunks (py "abcdefgh ij") 4 = Some (slices ++ [strip rest]) /\
    concat slices ++ rest = strip (py "abcdefgh ij") /\
    Forall (fun sl => len sl = 4%Z) slices /\
    (0 < len rest <= 4)%Z.
Proof.
  apply (unpunctuated_text_slices (py "abcdefgh ij") 4).
  - lia.
  - repeat constructor.
  - vm_compute. discriminate.
Defined.

(** ** [concatenate_wav_files] *)

Lemma copy_segments_keeps files i out w (fs : filesystem) :
  is_Some (fs !! out) ->
  is_Some ((copy_segments files i out w fs).1.1 !! out).
Proof.
  revert i w fs. induction files as [|f files IH]; intros i w fs Hout.
  - exact Hout.
  - cbn [copy_segments]. destruct (wave_read f fs) as [[q fr]|e]; [|exact Hout].
    destruct (if Nat.eqb i 0 then setparams q (length fr) w else Ok w)
      as [w1|e]; [|exact Hout].
    pose proof (writeframes_disk out fr w1 fs) as Hd.
    destruct (writeframes out fr w1 fs) as [[fs1 w2] [[]|e]];
      cbn [fst snd] in Hd |- *; subst fs1.
    + apply IH. rewrite lookup_insert_eq. eauto.
    + rewrite lookup_insert_eq. eauto.
Qed.

Lemma concatenate_leaves_file files out (fs : filesystem) :
  is_Some ((concatenate_wav_files files out fs).1 !! out).
Proof.
  unfold concatenate_wav_files.
  destruct (copy_segments files 0 out new_writer (<[out := RawFile []]> fs))
    as [[fs1 w] r].
  destruct (wave_close_disk out w fs1) as [d Hd].
  destruct (wave_close out w fs1) as [fs2 [[]|e]]; cbn [fst] in Hd |- *;
    subst fs2; rewrite lookup_insert_eq; eauto.
Qed.

(** X13: whatever the segments are and however the merge ends, it leaves
    a file at the destination and changes the disk nowhere else. *)
Theorem concatenate_writes_destination_only files out (fs : filesystem) :
  is_Some ((concatenate_wav_files files out fs).1 !! out) /\
  delete out (concatenate_wav_files files out fs).1 = delete out fs.
Proof.
  split.
  - apply concatenate_leaves_file.
  - apply map_eq. intros p. destruct (decide (p = out)) as [->|Hne].
    + rewrite !lookup_delete_eq. reflexivity.
    + rewrite !lookup_delete_ne by congruence.
      apply concatenate_frame, Hne.
Qed.

Lemma wave_read_insert_ne f out d (fs : filesystem) :
  f <> out -> wave_read f (<[out := d]> fs) = wave_read f fs.
Proof.
  intros Hne. unfold wave_read. rewrite lookup_insert_ne by congruence.
  reflexivity.
Qed.

Lemma copy_segments_stops p0 out (segs : list segment) bad rest e i w frames
    (fs : filesystem) :
  steady p0 frames w ->
  fs !! out = Some (WavFile p0 frames) ->
  Forall (readable fs out) segs ->
  length_fits (length (frames ++ seg_frames segs)) = true ->
  wave_read bad fs = Raise e ->
  exists w',
    copy_segments (map fst segs ++ bad :: rest) (S i) out w fs
    = (<[out := WavFile p0 (frames ++ seg_frames segs)]> fs, w', Raise e) /\
    steady p0 (frames ++ seg_frames segs) w'.
Proof.
  intros Hw Hout Hsegs Hfit Hbad. revert i w frames fs Hw Hout Hsegs Hfit Hbad.
  induction segs as [|[f [p fr]] segs IH];
    intros i w frames fs Hw Hout Hsegs Hfit Hbad.
  - exists w. cbn [map app copy_segments]. rewrite Hbad. unfold seg_frames.
    cbn [map concat]. rewrite app_nil_r, (insert_id _ _ _ Hout).
    split; [reflexivity | exact Hw].
  - inversion Hsegs as [|? ? [Hne Hf] Hrest]; subst. simpl in Hne, Hf.
    assert (Hassoc : frames ++ seg_frames ((f, (p, fr)) :: segs)
                     = (frames ++ fr) ++ seg_frames segs).
    { unfold seg_frames. cbn [map concat snd]. apply app_assoc. }
    rewrite Hassoc in Hfit |- *.
    assert (Hfit1 : length_fits (length (frames ++ fr)) = true).
    { unfold length_fits in *. apply Z.ltb_lt. apply Z.ltb_lt in Hfit.
      rewrite (length_app (frames ++ fr)) in Hfit. lia. }
    destruct (writeframes_steady p0 frames fr out w fs Hw Hfit1)
      as (w1 & Hwrite & Hw1).
    cbn [map fst app copy_segments]. unfold wave_read at 1. rewrite Hf.
    cbn [Nat.eqb]. rewrite Hwrite.
    destruct (IH (S i) w1 (frames ++ fr) (<[out := WavFile p0 (frames ++ fr)]> fs))
      as (w' & Hcopy & Hw'); auto.
    + apply lookup_insert_eq.
    + eapply Forall_impl; [exact Hrest|]. intros seg. apply readable_insert.
    + destruct (decide (bad = out)) as [->|Hbo].
      * unfold wave_read in Hbad. rewrite Hout in Hbad. discriminate Hbad.
      * rewrite wave_read_insert_ne by exact Hbo. exact Hbad.
    + exists w'. rewrite Hcopy, insert_insert_eq. split; [reflexivity | exact Hw'].
Qed.

(** X14: when an unreadable file, which is not the output path, comes
    after segments that can all be read, and the header fields take the
    first format and the length of those segments, the merge raises the
    error of that read, and the destination is left holding a well-formed
    recording of the segments before the unreadable file. *)
Theorem concatenate_stops_at_bad_segment (fs : filesystem) out f0 p0 fr0
    (segs : list segment) bad rest e :
  valid_params p0 = true ->
  header_fits p0 (length (fr0 ++ seg_frames segs)) = true ->
  Forall (readable fs out) ((f0, (p0, fr0)) :: segs) ->
  bad <> out -> wave_read bad fs = Raise e ->
  concatenate_wav_files (f0 :: map fst segs ++ bad :: rest) out fs =
  (<[out := WavFile p0 (fr0 ++ seg_frames segs)]> fs, Raise e).
Proof.
  intros Hvalid Hfit Hsegs Hbo Hbad.
  inversion Hsegs as [|? ? [Hne Hf] Hrest]; subst. simpl in Hne, Hf.
  destruct (header_fits_le p0 _ (length fr0) Hfit) as [Hfit0 _].
  { rewrite length_app. lia. }
  destruct (header_fits_le p0 _ _ Hfit (le_n _)) as [_ Hlen].
  destruct (first_segment_written p0 fr0 out (<[out := RawFile []]> fs)
              Hvalid Hfit0) as (w1 & w2 & Hset & Hwrite & Hw2).
  unfold concatenate_wav_files. cbn [copy_segments].
  unfold wave_read at 1. rewrite lookup_insert_ne, Hf by congruence.
  cbn [Nat.eqb]. rewrite Hset, Hwrite.
  destruct (copy_segments_stops p0 out segs bad rest e 0 w2 fr0
              (<[out := WavFile p0 fr0]> (<[out := RawFile []]> fs)) Hw2)
    as (w' & Hcopy & Hw'); auto.
  - apply lookup_insert_eq.
  - eapply Forall_impl; [exact Hrest|]. intros seg Hseg.
    apply readable_insert, readable_insert, Hseg.
  - rewrite !wave_read_insert_ne by exact Hbo. exact Hbad.
  - rewrite Hcopy, (wave_close_steady p0 _ out w' _ Hw').
    rewrite !insert_insert_eq. reflexivity.
Qed.

Lemma concatenate_stops_at_bad_segment_witness :
  concatenate_wav_files
    ("a.wav" :: map fst [("b.wav", (pcm 44100, [Byte.x03; Byte.x04]))]
       ++ "c.wav" :: ["a.wav"])%string
    "out.wav" demo_disk =
  (<["out.wav"%string :=
       WavFile (pcm 22050)
         ([Byte.x01; Byte.x02]
          ++ seg_frames [("b.wav"%string, (pcm 44100, [Byte.x03; Byte.x04]))])]>
     demo_disk, Raise FileNotFoundError).
Proof.
  apply (concatenate_stops_at_bad_segment demo_disk "out.wav" "a.wav"
           (pcm 22050) [Byte.x01; Byte.x02]).
  - reflexivity.
  - reflexivity.
  - repeat constructor; simpl; discriminate.
  - discriminate.
  - reflexivity.
Defined.

Lemma wave_close_new_writer out (fs : filesystem) :
  wave_close out new_writer (<[out := RawFile []]> fs)
  = (<[out := RawFile []]> fs, Raise WaveError).
Proof.
  unfold wave_close, ensure_header_written, new_writer, on_disk.
  cbn [w_header w_params w_junk]. rewrite insert_insert_eq. reflexivity.
Qed.

Lemma setparams_invalid p announced w :
  valid_params p = false -> setparams p announced w = Raise WaveError.
Proof.
  intros H. unfold setparams. rewrite H. destruct (w_frames w); reflexivity.
Qed.

(** X15: without a usable first segment (an empty list, or a first file
    that is the destination itself, is missing, is not a WAV file or has
    parameters the writer rejects) the merge raises [wave.Error] and
    leaves an empty file at the destination. *)
Theorem concatenate_without_first_segment files out (fs : filesystem) :
  no_first_segment files out fs ->
  concatenate_wav_files files out fs
  = (<[out := RawFile []]> fs, Raise WaveError).
Proof.
  unfold no_first_segment, concatenate_wav_files.
  destruct files as [|f files].
  - intros _. cbn [copy_segments]. rewrite wave_close_new_writer. reflexivity.
  - cbn [copy_segments]. unfold wave_read. intros [->|H].
    + rewrite lookup_insert_eq. cbv beta iota.
      rewrite wave_close_new_writer. reflexivity.
    + destruct (decide (f = out)) as [->|Hne].
      * rewrite lookup_insert_eq. cbv beta iota.
        rewrite wave_close_new_writer. reflexivity.
      * rewrite lookup_insert_ne by congruence.
        destruct (fs !! f) as [[p fr|p fr tl|e|b]|]; cbv beta iota;
          try (rewrite wave_close_new_writer; reflexivity);
          cbn [Nat.eqb]; rewrite (setparams_invalid _ _ _ H);
          rewrite wave_close_new_writer; reflexivity.
Qed.

Lemma concatenate_without_first_segment_witness :
  concatenate_wav_files ["missing.wav"; "a.wav"]%string "b.wav" demo_disk
  = (<["b.wav"%string := RawFile []]> demo_disk, Raise WaveError).
Proof.
  apply (concatenate_without_first_segment
           ["missing.wav"; "a.wav"]%string "b.wav" demo_disk).
  right. exact I.
Defined.

(** ** [convert_text_to_speech] *)

Lemma fresh_mktemp_unused reserved (fs : filesystem) :
  fs !! fresh_mktemp reserved fs = None.
Proof.
  apply not_elem_of_dom. intros H.
  apply (is_fresh ({[reserved]} ∪ dom fs)), elem_of_union. right. exact H.
Qed.

Lemma fresh_mktemp_reserved reserved (fs : filesystem) :
  fresh_mktemp reserved fs <> reserved.
Proof.
  intros H. apply (is_fresh ({[reserved]} ∪ dom fs)), elem_of_union. left.
  apply elem_of_singleton. exact H.
Qed.

(** What the [finally] block leaves, [os.unlink] not raising, when the
    [try] block has put [d] at the destination and otherwise only touched
    temporary files that were not there before the call. *)
Lemma cleanup_result unlink_raises temp_files out d (fs fs2 : filesystem) :
  (forall t fs0, unlink_raises t fs0 = false) ->
  out ∉ temp_files ->
  fs2 !! out = Some d ->
  (forall p, p <> out -> p ∉ temp_files -> fs2 !! p = fs !! p) ->
  Forall (fun t => fs !! t = None) temp_files ->
  cleanup unlink_raises temp_files fs2 = <[out := d]> fs.
Proof.
  intros Hu Hout Hd Hframe Hnew. apply map_eq. intros p.
  rewrite (cleanup_lookup _ _ _ _ Hu).
  destruct (decide (p ∈ temp_files)) as [Hin|Hnin].
  - rewrite lookup_insert_ne by (intros <-; contradiction).
    rewrite Forall_forall in Hnew. symmetry. apply Hnew, Hin.
  - destruct (decide (p = out)) as [->|Hne].
    + rewrite lookup_insert_eq. exact Hd.
    + rewrite lookup_insert_ne by congruence. apply Hframe; assumption.
Qed.

Section PipelineMore.
Variable mktemp : filesystem -> string.
Variable tts_to_file : str -> option file_data.
Variable unlink_raises : string -> filesystem -> bool.

(** X16: the call leaves every file other than the destination and its
    own temporary files exactly as it was. *)
Theorem convert_leaves_other_files chunks out fs p :
  p <> out ->
  p ∉ (convert_text_to_speech mktemp tts_to_file unlink_raises
         chunks out fs).1.2 ->
  (convert_text_to_speech mktemp tts_to_file unlink_raises
     chunks out fs).1.1 !! p
  = fs !! p.
Proof.
  unfold convert_text_to_speech. intros Hp.
  pose proof (convert_body_frame mktemp tts_to_file chunks out fs p Hp) as Hb.
  destruct (convert_body mktemp tts_to_file chunks out fs)
    as [[fs1 temp_files] r]. simpl in Hb |- *. intros Ht.
  rewrite cleanup_other by exact Ht. exact (Hb Ht).
Qed.

Lemma synthesize_chunks_all_ok chunks
    (recs : list (wav_params * list Byte.byte)) temp_files fs :
  (forall fs0, fs0 !! mktemp fs0 = None) ->
  Forall2 (fun c r => tts_to_file c = Some (WavFile r.1 r.2)) chunks recs ->
  exists (segs : list segment) fs1,
    synthesize_chunks mktemp tts_to_file chunks temp_files fs
    = (fs1, temp_files ++ map fst segs, Ok tt) /\
    map snd segs = recs /\
    Forall (fun seg => fs !! seg.1 = None) segs /\
    (forall p, p ∉ map fst segs -> fs1 !! p = fs !! p) /\
    Forall (fun seg => fs1 !! seg.1 = Some (WavFile seg.2.1 seg.2.2)) segs.
Proof.
  intros Hfresh H. revert temp_files fs.
  induction H as [|c r chunks recs Hc _ IH]; intros temp_files fs.
  - exists [], fs. cbn [synthesize_chunks map]. rewrite app_nil_r.
    repeat split; auto.
  - cbn [synthesize_chunks]. rewrite Hc.
    set (name := mktemp fs).
    destruct (IH (temp_files ++ [name])
                 (<[name := WavFile r.1 r.2]> (<[name := RawFile []]> fs)))
      as (segs & fs1 & Hs & Hrecs & Hnew & Hframe & Hdata).
    assert (Hname : name ∉ map fst segs).
    { intros Hin. apply list_elem_of_In, in_map_iff in Hin as (seg & Hseg & Hin).
      rewrite Forall_forall in Hnew.
      specialize (Hnew seg (proj2 (list_elem_of_In _ _) Hin)).
      rewrite Hseg, lookup_insert_eq in Hnew. discriminate Hnew. }
    exists ((name, r) :: segs), fs1. cbn [map fst snd].
    rewrite Hs, <- app_assoc. repeat split.
    + f_equal. exact Hrecs.
    + constructor; [apply Hfresh|].
      eapply Forall_impl; [exact Hnew|]. simpl. intros seg Hseg.
      destruct (decide (seg.1 = name)) as [E|E].
      * rewrite E, lookup_insert_eq in Hseg. discriminate Hseg.
      * rewrite !lookup_insert_ne in Hseg by congruence. exact Hseg.
    + intros p Hp. rewrite Hframe.
      * rewrite !lookup_insert_ne; [reflexivity | |];
          intros <-; apply Hp; left.
      * intros Hin. apply Hp. right. exact Hin.
    + constructor; [|exact Hdata]. simpl.
      rewrite (Hframe name Hname), lookup_insert_eq. reflexivity.
Qed.

(** X17: when the engine turns every chunk into a WAV file (temporary
    names being new and never the destination, [os.unlink] not raising,
    the first recording having parameters the writer accepts, and the
    header fields taking that format and the total length of the frames),
    the call succeeds and the disk afterwards is the disk before with one
    change: the destination holds the first recording's format and the
    frames of all recordings in chunk order.  No temporary file is left
    and no other file is changed. *)
Theorem convert_merges_recordings c0 cs p0 fr0
    (rs : list (wav_params * list Byte.byte)) out fs :
  (forall fs0, fs0 !! mktemp fs0 = None) ->
  (forall fs0, mktemp fs0 <> out) ->
  (forall t fs0, unlink_raises t fs0 = false) ->
  valid_params p0 = true ->
  header_fits p0 (length (fr0 ++ concat (map snd rs))) = true ->
  Forall2 (fun c r => tts_to_file c = Some (WavFile r.1 r.2))
          (c0 :: cs) ((p0, fr0) :: rs) ->
  exists temp_files,
    convert_text_to_speech mktemp tts_to_file unlink_raises (c0 :: cs) out fs
    = (<[out := WavFile p0 (fr0 ++ concat (map snd rs))]> fs,
       temp_files, Ok tt).
Proof.
  intros Hfresh Hout Hu Hvalid Hfit Hall.
  destruct (synthesize_chunks_all_ok (c0 :: cs) ((p0, fr0) :: rs) [] fs Hfresh Hall)
    as (segs & fs1 & Hs & Hrecs & Hnew & Hframe & Hdata).
  pose proof (synthesize_chunks_temps mktemp tts_to_file (fun t => t <> out)
                (c0 :: cs) [] fs Hout (Forall_nil_2 _)) as Hne.
  rewrite Hs in Hne. cbn [fst snd app] in Hs, Hne.
  destruct segs as [|[f0 r0] segs]; [discriminate Hrecs|].
  cbn [map fst snd] in *. injection Hrecs as -> Hrs.
  assert (Hnot : out ∉ f0 :: map fst segs).
  { intros Hin. rewrite Forall_forall in Hne. exact (Hne out Hin eq_refl). }
  assert (Hnew' : Forall (fun t => fs !! t = None) (f0 :: map fst segs)).
  { apply Forall_forall. intros t Ht.
    apply list_elem_of_In in Ht. change (f0 :: map fst segs)
      with (map fst ((f0, (p0, fr0)) :: segs)) in Ht.
    apply in_map_iff in Ht as (seg & <- & Hin).
    rewrite Forall_forall in Hnew. apply Hnew, list_elem_of_In, Hin. }
  exists (f0 :: map fst segs).
  unfold convert_text_to_speech, convert_body. rewrite Hs.
  inversion Hdata as [|? ? Hd0 Hdrest]; subst. simpl in Hd0.
  destruct segs as [|seg1 segs].
  - cbn [map length Nat.eqb hd]. unfold shutil_move. rewrite Hd0.
    f_equal. f_equal. cbn [map concat]. rewrite app_nil_r.
    apply cleanup_result;
      [exact Hu | exact Hnot | apply lookup_insert_eq | | exact Hnew'].
    intros p Hp Hpt. rewrite lookup_insert_ne by congruence.
    rewrite lookup_delete_ne by (intros <-; apply Hpt; left).
    apply Hframe, Hpt.
  - replace (Nat.eqb (length (f0 :: map fst (seg1 :: segs))) 1) with false
      by reflexivity.
    assert (Hframes : seg_frames (seg1 :: segs)
                      = concat (map snd (map snd (seg1 :: segs)))).
    { unfold seg_frames. rewrite map_map. reflexivity. }
    rewrite (concatenate_merge fs1 out f0 p0 fr0 (seg1 :: segs) Hvalid).
    + f_equal. f_equal. rewrite Hframes.
      apply cleanup_result;
        [exact Hu | exact Hnot | apply lookup_insert_eq | | exact Hnew'].
      intros p Hp Hpt. rewrite lookup_insert_ne by congruence.
      apply Hframe, Hpt.
    + rewrite Hframes. exact Hfit.
    + apply Forall_forall. intros seg Hseg. split.
      * rewrite Forall_forall in Hne. apply Hne.
        apply list_elem_of_In.
        change (f0 :: map fst (seg1 :: segs))
          with (map fst ((f0, (p0, fr0)) :: seg1 :: segs)).
        apply in_map, list_elem_of_In, Hseg.
      * rewrite Forall_forall in Hdata. apply Hdata, Hseg.
Qed.

Lemma synthesize_chunks_all_done chunks temp_files fs :
  Forall (fun c => is_Some (tts_to_file c)) chunks ->
  (synthesize_chunks mktemp tts_to_file chunks temp_files fs).2 = Ok tt.
Proof.
  intros H. revert temp_files fs.
  induction H as [|c chunks [d Hc] _ IH]; intros temp_files fs;
    cbn [synthesize_chunks]; [reflexivity|].
  rewrite Hc. apply IH.
Qed.

Lemma synthesize_chunks_exist chunks temp_files fs :
  Forall (fun t => is_Some (fs !! t)) temp_files ->
  Forall (fun t =>
            is_Some ((synthesize_chunks mktemp tts_to_file chunks temp_files fs).1.1
                     !! t))
         (synthesize_chunks mktemp tts_to_file chunks temp_files fs).1.2.
Proof.
  revert temp_files fs.
  induction chunks as [|c chunks IH]; intros temp_files fs H; [exact H|].
  cbn [synthesize_chunks].
  assert (Hins : forall d1 d2,
            Forall (fun t => is_Some
                      ((<[mktemp fs := d2]> (<[mktemp fs := d1]> fs)) !! t))
                   (temp_files ++ [mktemp fs])).
  { intros d1 d2. apply Forall_app. split.
    - eapply Forall_impl; [exact H|]. simpl. intros t [d Ht].
      destruct (decide (t = mktemp fs)) as [->|E].
      + rewrite lookup_insert_eq. eauto.
      + rewrite !lookup_insert_ne by congruence. eauto.
    - repeat constructor. rewrite lookup_insert_eq. eauto. }
  destruct (tts_to_file c) as [d|].
  - apply IH, Hins.
  - simpl. specialize (Hins (RawFile []) (RawFile [])).
    rewrite insert_insert_eq in Hins. exact Hins.
Qed.

(** X18: once the engine has gone through every chunk, the destination
    is written, whether the merge then succeeds or not: a file is there
    when the call is over, also when it raises. *)
Theorem synthesized_run_writes_destination chunks out fs :
  (forall fs0, mktemp fs0 <> out) ->
  Forall (fun c => is_Some (tts_to_file c)) chunks ->
  is_Some ((convert_text_to_speech mktemp tts_to_file unlink_raises
              chunks out fs).1.1 !! out).
Proof.
  intros Hout Hall. unfold convert_text_to_speech, convert_body.
  pose proof (synthesize_chunks_all_done chunks [] fs Hall) as Hr.
  pose proof (synthesize_chunks_exist chunks [] fs (Forall_nil_2 _)) as Hex.
  pose proof (synthesize_chunks_temps mktemp tts_to_file (fun t => t <> out)
                chunks [] fs Hout (Forall_nil_2 _)) as Hne.
  destruct (synthesize_chunks mktemp tts_to_file chunks [] fs)
    as [[fs1 temp_files] r]. simpl in Hr, Hex, Hne. subst r.
  assert (Hnot : out ∉ temp_files).
  { intros Hin. rewrite Forall_forall in Hne. exact (Hne out Hin eq_refl). }
  destruct (Nat.eqb (length temp_files) 1) eqn:El.
  - destruct temp_files as [|t [|? ?]]; try discriminate El. cbn [hd].
    inversion Hex as [|? ? [d Hd] _]; subst.
    unfold shutil_move. rewrite Hd. cbn [fst snd].
    rewrite cleanup_other by exact Hnot.
    rewrite lookup_insert_eq. eauto.
  - pose proof (concatenate_leaves_file temp_files out fs1) as Hc.
    destruct (concatenate_wav_files temp_files out fs1) as [fs2 r].
    cbn [fst snd] in Hc |- *. rewrite cleanup_other by exact Hnot. exact Hc.
Qed.
End PipelineMore.

Lemma convert_leaves_other_files_witness :
  (convert_text_to_speech demo_mktemp demo_tts unlink_works [py "Szia"]
     "out.wav" demo_disk).1.1 !! "a.wav"%string
  = demo_disk !! "a.wav"%string.
Proof.
  apply (convert_leaves_other_files demo_mktemp demo_tts unlink_works [py "Szia"]
           "out.wav" demo_disk "a.wav").
  - discriminate.
  - intros H. apply list_elem_of_In in H. vm_compute in H.
    destruct H as [H|[]]. discriminate H.
Defined.

Lemma convert_merges_recordings_witness :
  exists temp_files,
    convert_text_to_speech (fresh_mktemp "out.wav") demo_tts unlink_works
      [py "Szia"; py "Hogy vagy"] "out.wav" ∅
    = (<["out.wav"%string :=
           WavFile (pcm 22050)
             ([Byte.x01; Byte.x02]
              ++ concat (map snd [(pcm 22050, [Byte.x01; Byte.x02])]))]> ∅,
       temp_files, Ok tt).
Proof.
  apply (convert_merges_recordings (fresh_mktemp "out.wav") demo_tts
           unlink_works (py "Szia") [py "Hogy vagy"] (pcm 22050) [Byte.x01; Byte.x02]
           [(pcm 22050, [Byte.x01; Byte.x02])] "out.wav" ∅).
  - apply fresh_mktemp_unused.
  - apply fresh_mktemp_reserved.
  - reflexivity.
  - reflexivity.
  - reflexivity.
  - repeat constructor.
Defined.

Lemma synthesized_run_writes_destination_witness :
  is_Some ((convert_text_to_speech demo_mktemp demo_tts unlink_works
              [py "Szia"; py "?"] "b.wav" demo_disk).1.1 !! "b.wav"%string).
Proof.
  apply (synthesized_run_writes_destination demo_mktemp demo_tts
           unlink_works [py "Szia"; py "?"] "b.wav" demo_disk).
  - intros fs0 H. unfold demo_mktemp in H. cbn [append] in H. discriminate H.
  - repeat constructor; vm_compute; eauto.
Defined.

(** ** [main] *)

Section MainFacts.
Variable input_exists input_is_file : bool.
Variable open_read : encoding -> result str.
Variable chunk_size : Z.
Variable initialize_tts : result unit.
Variable output_file backup_path : string.
Variable mktemp : filesystem -> string.
Variable tts_to_file : str -> option file_data.
Variable unlink_raises : string -> filesystem -> bool.

Lemma backup_output_spec fs d :
  fs !! output_file = Some d ->
  backup_output output_file backup_path fs = (fs, Raise OSError) \/
  (output_file <> backup_path /\
   backup_output output_file backup_path fs
   = (<[backup_path := d]> fs, Ok tt)).
Proof.
  intros Hd. unfold backup_output, shutil_copy2. rewrite Hd.
  destruct (String.eqb_spec output_file backup_path) as [E|E];
    [left; reflexivity | right; split; [exact E | reflexivity]].
Qed.

(** The conversion does not touch a path that is neither the destination
    nor a name the temporary-name generator can return. *)
Lemma convert_spares chunks out fs p :
  p <> out -> (forall fs0, mktemp fs0 <> p) ->
  (convert_text_to_speech mktemp tts_to_file unlink_raises chunks out fs).1.1 !! p
  = fs !! p.
Proof.
  intros Hp Hmk. unfold convert_text_to_speech.
  pose proof (convert_body_frame mktemp tts_to_file chunks out fs p Hp) as Hb.
  assert (Ht : Forall (fun t => t <> p)
                 (convert_body mktemp tts_to_file chunks out fs).1.2).
  { unfold convert_body.
    pose proof (synthesize_chunks_temps mktemp tts_to_file (fun t => t <> p)
                  chunks [] fs Hmk (Forall_nil_2 _)) as H.
    destruct (synthesize_chunks mktemp tts_to_file chunks [] fs)
      as [[fs1 temp_files] [[]|e]]; [|exact H].
    destruct (Nat.eqb (length temp_files) 1).
    - destruct (shutil_move _ _ _). exact H.
    - destruct (concatenate_wav_files _ _ _). exact H. }
  destruct (convert_body mktemp tts_to_file chunks out fs)
    as [[fs1 temp_files] r]. cbn [fst snd] in *.
  assert (Hnot : p ∉ temp_files).
  { intros Hin. rewrite Forall_forall in Ht. exact (Ht p Hin eq_refl). }
  rewrite cleanup_other by exact Hnot. exact (Hb Hnot).
Qed.

(** X19: [main] never loses a recording that was at the output path: for
    a positive chunk size it returns, and afterwards the old recording is
    still at the output path or it is at the backup path, whichever way
    the run ended. *)
Theorem main_keeps_old_recording fs d :
  (0 < chunk_size)%Z ->
  (forall fs0, mktemp fs0 <> backup_path) ->
  fs !! output_file = Some d ->
  exists fs' status,
    main input_exists input_is_file open_read chunk_size initialize_tts
         output_file backup_path mktemp tts_to_file unlink_raises fs
    = Some (fs', status) /\
    (fs' !! output_file = Some d \/ fs' !! backup_path = Some d).
Proof.
  intros HN Hmk Hd. unfold main, main_try.
  destruct (validate_input_file input_exists input_is_file);
    [|eexists _, _; split; [reflexivity | left; exact Hd]].
  destruct (read_text_file open_read) as [text|e];
    [|eexists _, _; split; [reflexivity | left; exact Hd]].
  destruct (negb (truthy text));
    [eexists _, _; split; [reflexivity | left; exact Hd]|].
  destruct (split_text_into_chunks_spec (clean_text text) chunk_size HN)
    as (chunks & -> & _).
  destruct initialize_tts;
    [|eexists _, _; split; [reflexivity | left; exact Hd]].
  destruct (backup_output_spec fs d Hd) as [->|[Hne ->]];
    [eexists _, _; split; [reflexivity | left; exact Hd]|].
  pose proof (convert_spares chunks output_file (<[backup_path := d]> fs)
                backup_path (not_eq_sym Hne) Hmk) as Hkeep.
  rewrite lookup_insert_eq in Hkeep.
  destruct (convert_text_to_speech mktemp tts_to_file unlink_raises chunks
              output_file
              (<[backup_path := d]> fs)) as [[fs2 temp_files] [[]|e]];
    cbn [fst snd] in Hkeep.
  - destruct (get_file_info output_file fs2);
      eexists _, _; (split; [reflexivity | right; exact Hkeep]).
  - eexists _, _. split; [reflexivity | right; exact Hkeep].
Qed.

End MainFacts.

Lemma main_keeps_old_recording_witness :
  exists fs' status,
    main true true
         (fun e => match e with
                   | utf_8 => Ok (py " Szia! Hogy vagy? ")
                   | _ => Raise UnicodeDecodeError
                   end)
         5 (Ok tt) "b.wav" "b.backup.wav" demo_mktemp demo_tts unlink_works
         demo_disk
    = Some (fs', status) /\
    (fs' !! "b.wav"%string = Some (WavFile (pcm 44100) [Byte.x03; Byte.x04]) \/
     fs' !! "b.backup.wav"%string
     = Some (WavFile (pcm 44100) [Byte.x03; Byte.x04])).
Proof.
  apply (main_keeps_old_recording true true _ 5 (Ok tt) "b.wav" "b.backup.wav"
           demo_mktemp demo_tts unlink_works demo_disk).
  - lia.
  - intros fs0 H. unfold demo_mktemp in H. cbn [append] in H. discriminate H.
  - reflexivity.
Defined.

